(** * Lexical feature extraction from LLVM IR text: a shallow embedding

    Source: [feature_extractor2.py], class [IRFeatureExtractor].  The
    extractor recovers functions, basic blocks, loop regions and call edges
    from raw text with Python's [re] module.  The embedding therefore starts
    with a small backtracking matcher for exactly the regular-expression
    constructs the source uses, with Python's priorities (leftmost start,
    greedy or lazy repetition, ordered alternation, atomic lookahead), and
    builds each method of the class on top of it.

    Texts are lists of characters.  A character is a code point in 0..255
    and the classes [\s], [\w], [\d] are the ones of Python's [str] patterns
    on that range. *)

From Stdlib Require Import Ascii String QArith.
From Stdlib Require Import Bool Arith Lia List.
Import ListNotations.

Set Implicit Arguments.
Open Scope nat_scope.
Open Scope list_scope.

(** ** Texts *)

Definition text := list ascii.

Definition txt (s : string) : text := list_ascii_of_string s.

Definition nl : ascii := ascii_of_nat 10.

Definition text_eqb (a b : text) : bool :=
  if list_eq_dec ascii_dec a b then true else false.

Definition between (lo hi : nat) (c : ascii) : bool :=
  (lo <=? nat_of_ascii c) && (nat_of_ascii c <=? hi).

(** [\s]: the characters for which [str.isspace] holds. *)
Definition is_space (c : ascii) : bool :=
  between 9 13 c || between 28 32 c
  || (nat_of_ascii c =? 133) || (nat_of_ascii c =? 160).

(** [\d] *)
Definition is_digit (c : ascii) : bool := between 48 57 c.

(** [\w]: alphanumerics and the underscore. *)
Definition is_word (c : ascii) : bool :=
  is_digit c || between 65 90 c || between 97 122 c || (nat_of_ascii c =? 95)
  || (nat_of_ascii c =? 170) || between 178 179 c || (nat_of_ascii c =? 181)
  || between 185 186 c || between 188 190 c || between 192 214 c
  || between 216 246 c || between 248 255 c.

(** [[\w.]] *)
Definition is_name_char (c : ascii) : bool := is_word c || Ascii.eqb c ".".

(** [.] without DOTALL, and with it. *)
Definition not_nl (c : ascii) : bool := negb (Ascii.eqb c nl).
Definition any_char (_ : ascii) : bool := true.

(** [[^;}]] *)
Definition not_semi_brace (c : ascii) : bool :=
  negb (Ascii.eqb c ";" || Ascii.eqb c "}").

(** ** The regular expressions of the source *)

Inductive regex : Type :=
| Eps
| Lit (c : ascii)                 (* a literal character *)
| Cls (p : ascii -> bool)         (* a character class, [.] included *)
| Seq (r1 r2 : regex)
| Alt (r1 r2 : regex)             (* r1|r2, r1 tried first *)
| Star (p : ascii -> bool)        (* [p]* greedy *)
| LazyStar (p : ascii -> bool)    (* [p]*? *)
| Look (r : regex)                (* (?=r) *)
| EndZ                            (* \Z *)
| WordB                           (* \b *)
| Grp (r : regex).                (* (r), the pattern's group 1 *)

Definition Plus (p : ascii -> bool) : regex := Seq (Cls p) (Star p).

Fixpoint Str (s : text) : regex :=
  match s with
  | [] => Eps
  | c :: s' => Seq (Lit c) (Str s')
  end.

(** A matcher state: the character before the cursor (for [\b]), the text
    still ahead, and what group 1 holds. *)
Record cur : Type := Cur {
  prev : option ascii;
  rest : text;
  grp : option text
}.

Definition word_at (o : option ascii) : bool :=
  match o with Some c => is_word c | None => false end.

(** Greedy repetition of a class: longest run first, then shorter ones. *)
Fixpoint star_run (p : ascii -> bool) (pv : option ascii) (s : text)
    (g : option text) : list cur :=
  match s with
  | c :: s' =>
      if p c then star_run p (Some c) s' g ++ [Cur pv s g] else [Cur pv s g]
  | [] => [Cur pv s g]
  end.

(** Lazy repetition: shortest run first. *)
Fixpoint lazy_run (p : ascii -> bool) (pv : option ascii) (s : text)
    (g : option text) : list cur :=
  match s with
  | c :: s' => Cur pv s g :: (if p c then lazy_run p (Some c) s' g else [])
  | [] => [Cur pv s g]
  end.

(** [run r c]: every way [r] matches at [c], in the order in which a
    backtracking matcher tries them.  The head is the match Python reports. *)
Fixpoint run (r : regex) (c : cur) : list cur :=
  match r with
  | Eps => [c]
  | Lit a =>
      match rest c with
      | x :: s' => if Ascii.eqb x a then [Cur (Some x) s' (grp c)] else []
      | [] => []
      end
  | Cls p =>
      match rest c with
      | x :: s' => if p x then [Cur (Some x) s' (grp c)] else []
      | [] => []
      end
  | Seq r1 r2 => flat_map (run r2) (run r1 c)
  | Alt r1 r2 => run r1 c ++ run r2 c
  | Star p => star_run p (prev c) (rest c) (grp c)
  | LazyStar p => lazy_run p (prev c) (rest c) (grp c)
  | Look r1 =>
      match run r1 c with
      | c' :: _ => [Cur (prev c) (rest c) (grp c')]
      | [] => []
      end
  | EndZ => match rest c with [] => [c] | _ :: _ => [] end
  | WordB =>
      if xorb (word_at (prev c)) (word_at (hd_error (rest c))) then [c] else []
  | Grp r1 =>
      map (fun c' =>
             Cur (prev c') (rest c')
                 (Some (firstn (length (rest c) - length (rest c')) (rest c))))
          (run r1 c)
  end.

(** A match object: start offset, group 0, group 1. *)
Record mobj : Type := MObj {
  m_start : nat;
  m_text : text;
  m_grp : option text
}.

Definition match_at (r : regex) (pv : option ascii) (s : text) : option cur :=
  hd_error (run r (Cur pv s None)).

Definition mk_match (off : nat) (s : text) (c : cur) : mobj :=
  MObj off (firstn (length s - length (rest c)) s) (grp c).

(** [re.finditer]: scan left to right; after a match resume at its end.
    [skip] counts the characters of the last match still to step over.
    (No pattern of the source matches the empty string; an empty match
    would be reported and the scan would move on by one character.) *)
Fixpoint scan (r : regex) (off : nat) (pv : option ascii) (s : text)
    (skip : nat) : list mobj :=
  match s with
  | [] =>
      match skip, match_at r pv [] with
      | 0, Some c => [mk_match off [] c]
      | _, _ => []
      end
  | x :: s' =>
      match skip with
      | S k => scan r (S off) (Some x) s' k
      | 0 =>
          match match_at r pv s with
          | Some c =>
              mk_match off s c
                :: scan r (S off) (Some x) s' (length s - length (rest c) - 1)
          | None => scan r (S off) (Some x) s' 0
          end
      end
  end.

Definition finditer (r : regex) (t : text) : list mobj := scan r 0 None t 0.

(** [re.search]: the first match [finditer] would yield. *)
Definition search (r : regex) (t : text) : option mobj := hd_error (finditer r t).

(** [re.findall] for a pattern without group, and for one with group 1. *)
Definition findall (r : regex) (t : text) : list text :=
  map m_text (finditer r t).

Definition group1 (m : mobj) : text :=
  match m_grp m with Some g => g | None => [] end.

Definition findall1 (r : regex) (t : text) : list text :=
  map group1 (finditer r t).

(** [re.split] for a pattern without group: the pieces between matches. *)
Fixpoint pieces (pos : nat) (ms : list mobj) (t : text) : list text :=
  match ms with
  | [] => [skipn pos t]
  | m :: ms' =>
      firstn (m_start m - pos) (skipn pos t)
        :: pieces (m_start m + length (m_text m)) ms' t
  end.

Definition re_split (r : regex) (t : text) : list text :=
  pieces 0 (finditer r t) t.

(** ** Python's string and dict operations used by the source *)

Fixpoint starts_with (sub t : text) : bool :=
  match sub, t with
  | [], _ => true
  | a :: sub', b :: t' => Ascii.eqb a b && starts_with sub' t'
  | _ :: _, [] => false
  end.

(** [t.find(sub)]: the lowest index where [sub] occurs, [None] for -1. *)
Fixpoint find (sub t : text) : option nat :=
  if starts_with sub t then Some 0
  else match t with
       | [] => None
       | _ :: t' => option_map S (find sub t')
       end.

(** [sub in t] *)
Definition contains (sub t : text) : bool :=
  match find sub t with Some _ => true | None => false end.

(** [t[i:j]] for [0 <= i]. *)
Definition slice (i j : nat) (t : text) : text := firstn (j - i) (skipn i t).

Fixpoint lstrip (t : text) : text :=
  match t with
  | c :: t' => if is_space c then lstrip t' else t
  | [] => []
  end.

Definition rstrip (t : text) : text := rev (lstrip (rev t)).

(** [t.strip()] *)
Definition strip (t : text) : text := rstrip (lstrip t).

(** [t.split('\n')[0]] *)
Fixpoint first_line (t : text) : text :=
  match t with
  | c :: t' => if Ascii.eqb c nl then [] else c :: first_line t'
  | [] => []
  end.

(** [int(t)] for a run of decimal digits, as an unbounded integer (the cap
    some interpreters put on the number of digits [int] accepts is not
    modelled). *)
Definition int_of_digits (t : text) : Z :=
  fold_left (fun acc c => (10 * acc + Z.of_nat (nat_of_ascii c - 48))%Z) t 0%Z.

Definition is_empty {A} (l : list A) : bool :=
  match l with [] => true | _ :: _ => false end.

(** A Python dict keeps insertion order; assigning to a key that is present
    replaces the value where the key stands. *)
Section Dict.
Variables K V : Type.
Variable keq : K -> K -> bool.

Fixpoint dict_set (k : K) (v : V) (d : list (K * V)) : list (K * V) :=
  match d with
  | [] => [(k, v)]
  | (k', v') :: d' =>
      if keq k' k then (k, v) :: d' else (k', v') :: dict_set k v d'
  end.

Fixpoint dict_get (k : K) (d : list (K * V)) : option V :=
  match d with
  | [] => None
  | (k', v') :: d' => if keq k' k then Some v' else dict_get k d'
  end.

Definition dict_update (d other : list (K * V)) : list (K * V) :=
  fold_left (fun acc kv => dict_set (fst kv) (snd kv) acc) other d.
End Dict.

(** ** The patterns of [IRFeatureExtractor] *)

(** [define.*{.*?}(?=\n\s*(?:define|\Z))] with [re.DOTALL], in three parts:
    the lookahead [(?=\n\s*(?:define|\Z))], the tail [{.*?}(?=...)] and the
    whole pattern. *)
Definition next_definition_ahead : regex :=
  Look (Seq (Lit nl) (Seq (Star is_space) (Alt (Str (txt "define")) EndZ))).

Definition region_tail : regex :=
  Seq (Lit "{") (Seq (LazyStar any_char) (Seq (Lit "}") next_definition_ahead)).

Definition function_pattern : regex :=
  Seq (Str (txt "define")) (Seq (Star any_char) region_tail).

(** [@([\w.]+)] *)
Definition name_pattern : regex := Seq (Lit "@") (Grp (Plus is_name_char)).

(** [\n\s*[\w.]+:] *)
Definition label_pattern : regex :=
  Seq (Lit nl) (Seq (Star is_space) (Seq (Plus is_name_char) (Lit ":"))).

(** [\n\s+[^;}]] *)
Definition instr_pattern : regex :=
  Seq (Lit nl) (Seq (Plus is_space) (Cls not_semi_brace)).

(** [br\s+(?:label|i1)] *)
Definition succ_pattern : regex :=
  Seq (Str (txt "br"))
   (Seq (Plus is_space) (Alt (Str (txt "label")) (Str (txt "i1")))).

(** [loop:.*\n] *)
Definition loop_header_pattern : regex :=
  Seq (Str (txt "loop:")) (Seq (Star not_nl) (Lit nl)).

(** [loop:] *)
Definition loop_pattern : regex := Str (txt "loop:").

(** [br\s+i1] *)
Definition cond_br_pattern : regex :=
  Seq (Str (txt "br")) (Seq (Plus is_space) (Str (txt "i1"))).

(** [\b<word>\b], for [\bcall\b] and [count_specific_instructions]. *)
Definition word_pattern (w : text) : regex := Seq WordB (Seq (Str w) WordB).

(** [call\s+.*@([\w.]+)] *)
Definition calls_pattern : regex :=
  Seq (Str (txt "call"))
   (Seq (Plus is_space)
    (Seq (Star not_nl) (Seq (Lit "@") (Grp (Plus is_name_char))))).

(** [!prof ![\d]+.*![\d]+] *)
Definition prof_pattern : regex :=
  Seq (Str (txt "!prof !"))
   (Seq (Plus is_digit) (Seq (Star not_nl) (Seq (Lit "!") (Plus is_digit)))).

(** [count:(\d+)] *)
Definition count_pattern : regex :=
  Seq (Str (txt "count:")) (Grp (Plus is_digit)).

(** [!prof ![\d]+.*count:(\d+)] *)
Definition block_prof_pattern : regex :=
  Seq (Str (txt "!prof !"))
   (Seq (Plus is_digit)
    (Seq (Star not_nl) (Seq (Str (txt "count:")) (Grp (Plus is_digit))))).

(** The name spliced into [f'call.*@{function_name}'] is read as a pattern:
    a dot in it stands for any character but a newline, every other
    character of [[\w.]] for itself. *)
Fixpoint name_as_pattern (n : text) : regex :=
  match n with
  | [] => Eps
  | c :: n' =>
      Seq (if Ascii.eqb c "." then Cls not_nl else Lit c) (name_as_pattern n')
  end.

(** [call.*@{function_name}] *)
Definition caller_pattern (n : text) : regex :=
  Seq (Str (txt "call")) (Seq (Star not_nl) (Seq (Lit "@") (name_as_pattern n))).

(** ** The methods of [IRFeatureExtractor] *)

(** [_get_function_name] *)
Definition get_function_name (function_text : text) : text :=
  match search name_pattern function_text with
  | Some m => group1 m
  | None => txt "unknown"
  end.

(** [_split_into_functions]: the dict comprehension over [re.finditer]. *)
Definition split_into_functions (ir_content : text) : list (text * text) :=
  fold_left
    (fun d f => dict_set text_eqb (get_function_name (m_text f)) (m_text f) d)
    (finditer function_pattern ir_content) [].

(** [_get_basic_blocks] *)
Definition get_basic_blocks (function_text : text) : list text :=
  let blocks := tl (re_split label_pattern function_text) in
  map strip (filter (fun block => negb (is_empty (strip block))) blocks).

Definition count_matches (r : regex) (t : text) : nat := length (findall r t).

Definition sum (l : list nat) : nat := fold_right Nat.add 0 l.

(** A method either returns a value or raises: [None] stands for the
    exception, which travels up to the first [try] around the call. *)
Definition bind {A B : Type} (x : option A) (f : A -> option B) : option B :=
  match x with
  | Some a => f a
  | None => None
  end.

Notation "x <- e ;; k" := (bind e (fun x => k))
  (at level 61, e at next level, right associativity).

(** Python's [a / b] on two counts; [ZeroDivisionError] when [b] is 0.  The
    quotient is kept exact: the rounding to a float is not modelled. *)
Definition truediv (a b : nat) : option Q :=
  match b with
  | 0 => None
  | S _ => Some (Qmake (Z.of_nat a) (Pos.of_nat b))
  end.

(** [get_instruction_per_block] *)
Definition get_instruction_per_block (function_text : text) : option Q :=
  let blocks := get_basic_blocks function_text in
  if is_empty blocks then Some 0%Q
  else
    let total_instructions := sum (map (count_matches instr_pattern) blocks) in
    truediv total_instructions (length blocks).

(** [get_successor_per_block] *)
Definition get_successor_per_block (function_text : text) : option Q :=
  let blocks := get_basic_blocks function_text in
  if is_empty blocks then Some 0%Q
  else
    let total_successors := sum (map (count_matches succ_pattern) blocks) in
    truediv total_successors (length blocks).

(** The [while] loop of [_get_loop_body].  One unit of fuel per iteration;
    [None] only when the fuel runs out before the loop condition fails. *)
Fixpoint brace_loop (fuel : nat) (function_text : text)
    (brace_count end_idx : nat) : option (nat * nat) :=
  if (0 <? brace_count) && (end_idx <? length function_text - 1) then
    match fuel with
    | 0 => None
    | S fuel' =>
        let end_idx := end_idx + 1 in
        let ch := nth end_idx function_text zero in
        if Ascii.eqb ch "{" then
          brace_loop fuel' function_text (brace_count + 1) end_idx
        else if Ascii.eqb ch "}" then
          brace_loop fuel' function_text (brace_count - 1) end_idx
        else brace_loop fuel' function_text brace_count end_idx
    end
  else Some (brace_count, end_idx).

(** [_get_loop_body] *)
Definition get_loop_body (loop_header function_text : text) : text :=
  match find loop_header function_text with
  | None => []
  | Some start_idx =>
      match brace_loop (length function_text) function_text 1 start_idx with
      | Some (_, end_idx) => slice start_idx (end_idx + 1) function_text
      | None => []
      end
  end.

(** Feature values: the row holds a name and numbers. *)
Inductive value : Type :=
| VStr (s : text)
| VNum (q : Q).

Definition VNat (n : nat) : value := VNum (inject_Z (Z.of_nat n)).

Definition row := list (string * value).

(** [max] on a list of counts; the source tests the list for emptiness
    before it calls [max]. *)
Definition list_max (l : list nat) : nat := fold_right Nat.max 0 l.

(** [get_loop_features].  The conditional expressions of the returned dict
    are kept: each division sits behind its own test. *)
Definition get_loop_features (function_text : text) : option row :=
  let loop_headers := findall loop_header_pattern function_text in
  if is_empty loop_headers then
    Some [ ("avg_nested_loop_level", VNat 0);
           ("instr_per_loop", VNat 0);
           ("block_with_multiple_succ_per_loop", VNat 0);
           ("max_loop_depth", VNat 0);
           ("num_callsite_in_loop", VNat 0) ]%string
  else
    let loop_depths := map (count_matches loop_pattern) loop_headers in
    let bodies :=
      map (fun loop => get_loop_body loop function_text) loop_headers in
    let total_instructions := sum (map (count_matches instr_pattern) bodies) in
    let multiple_succ_blocks :=
      sum (map (count_matches cond_br_pattern) bodies) in
    let callsites_in_loop :=
      sum (map (count_matches (word_pattern (txt "call"))) bodies) in
    avg_nested_loop_level <-
      (if is_empty loop_depths then Some 0%Q
       else truediv (sum loop_depths) (length loop_depths));;
    instr_per_loop <-
      (if is_empty loop_headers then Some 0%Q
       else truediv total_instructions (length loop_headers));;
    block_with_multiple_succ_per_loop <-
      (if is_empty loop_headers then Some 0%Q
       else truediv multiple_succ_blocks (length loop_headers));;
    Some [ ("avg_nested_loop_level", VNum avg_nested_loop_level);
           ("instr_per_loop", VNum instr_per_loop);
           ("block_with_multiple_succ_per_loop",
            VNum block_with_multiple_succ_per_loop);
           ("max_loop_depth",
            VNat (if is_empty loop_depths then 0 else list_max loop_depths));
           ("num_callsite_in_loop", VNat callsites_in_loop) ]%string.

Section CallGraph.
(** [self.functions]: name to text, in insertion order. *)
Variable functions : list (text * text).

(** [_find_caller] *)
Definition find_caller (function_text : text) : option text :=
  let function_name := get_function_name function_text in
  List.find
    (fun func =>
       match search (caller_pattern function_name) func with
       | Some _ => true
       | None => false
       end)
    (map snd functions).

Definition in_set (n : text) (visited : list text) : bool :=
  existsb (text_eqb n) visited.

(** The [while True] loop of [_calculate_caller_height]; one unit of fuel
    per iteration, [None] when it runs out before the [break]. *)
Fixpoint height_loop (fuel : nat) (height : nat) (current_func : text)
    (visited : list text) : option nat :=
  match fuel with
  | 0 => None
  | S fuel' =>
      match find_caller current_func with
      | None => Some height
      | Some caller =>
          if in_set (get_function_name caller) visited then Some height
          else
            height_loop fuel' (height + 1) caller
              (get_function_name current_func :: visited)
      end
  end.

Definition height_fuel : nat := length functions + 2.

(** [_calculate_caller_height] *)
Definition calculate_caller_height (function_text : text) : nat :=
  match height_loop height_fuel 0 function_text [] with
  | Some height => height
  | None => 0
  end.

(** [max] on a list of frequencies, none of which is negative. *)
Definition Zmax_list (l : list Z) : Z := fold_right Z.max 0%Z l.

(** [get_call_graph_features] *)
Definition get_call_graph_features (function_text : text) : row :=
  let calls := findall1 calls_pattern function_text in
  let function_name := get_function_name function_text in
  let is_recursive := in_set function_name calls in
  let call_usage := length calls in
  let entry_freq :=
    match search prof_pattern function_text with
    | Some entry_block_match =>
        match search count_pattern (m_text entry_block_match) with
        | Some freq_match => int_of_digits (group1 freq_match)
        | None => 0%Z
        end
    | None => 0%Z
    end in
  let block_freqs :=
    flat_map
      (fun block =>
         match search block_prof_pattern block with
         | Some freq_match => [int_of_digits (group1 freq_match)]
         | None => []
         end)
      (get_basic_blocks function_text) in
  let max_callsite_freq :=
    if is_empty block_freqs then 0%Z else Zmax_list block_freqs in
  let caller_height := calculate_caller_height function_text in
  [ ("caller_height", VNat caller_height);
    ("call_usage", VNat call_usage);
    ("is_recursive", VNat (if is_recursive then 1 else 0));
    ("entry_block_freq", VNum (inject_Z entry_freq));
    ("max_callsite_block_freq", VNum (inject_Z max_callsite_freq)) ]%string.

(** [get_calls_no] *)
Definition get_calls_no (function_text : text) : nat :=
  count_matches (word_pattern (txt "call")) function_text.

(** [is_local] *)
Definition is_local (function_text : text) : nat :=
  if contains (txt "internal") (first_line function_text) then 1 else 0.

(** The characters to which the regular-expression compiler gives a meaning
    of their own; every other character of a pattern stands for itself. *)
Definition is_special (c : ascii) : bool :=
  existsb (Ascii.eqb c) (txt ".^$*+?{}[]\|()").

(** [fr'\b{instruction}\b'] as a pattern.  The instruction is spliced into
    the pattern text: it is read as the literal word only when none of its
    characters is special.  The patterns other instructions give are outside
    this embedding ([None]). *)
Definition instruction_pattern (instruction : text) : option regex :=
  if existsb is_special instruction then None
  else Some (word_pattern instruction).

(** [count_specific_instructions]; no result for an instruction whose
    pattern is outside the embedding.  The five instruction names the source
    passes are plain words. *)
Definition count_specific_instructions (function_text : text)
    (instruction : string) : option nat :=
  r <- instruction_pattern (txt instruction);;
  Some (count_matches r function_text).

(** The body of the loop of [extract_all_features]: one row.  The values of
    the dict display are evaluated in the order in which they are written. *)
Definition feature_row (func_name func_text : text) : option row :=
  instruction_per_block <- get_instruction_per_block func_text;;
  successor_per_block <- get_successor_per_block func_text;;
  let calls_no := get_calls_no func_text in
  let local := is_local func_text in
  ret_count <- count_specific_instructions func_text "ret";;
  fmul_count <- count_specific_instructions func_text "fmul";;
  fdiv_count <- count_specific_instructions func_text "fdiv";;
  fadd_count <- count_specific_instructions func_text "fadd";;
  fsub_count <- count_specific_instructions func_text "fsub";;
  let feature_dict :=
    [ ("function_name", VStr func_name);
      ("instruction_per_block", VNum instruction_per_block);
      ("successor_per_block", VNum successor_per_block);
      ("calls_no", VNat calls_no);
      ("is_local", VNat local);
      ("ret_count", VNat ret_count);
      ("fmul_count", VNat fmul_count);
      ("fdiv_count", VNat fdiv_count);
      ("fadd_count", VNat fadd_count);
      ("fsub_count", VNat fsub_count) ]%string in
  loop_features <- get_loop_features func_text;;
  let feature_dict := dict_update String.eqb feature_dict loop_features in
  let call_features := get_call_graph_features func_text in
  Some (dict_update String.eqb feature_dict call_features).
End CallGraph.

(** The [for] loop with its [features.append]: the rows in order; the first
    exception ends the loop. *)
Fixpoint collect {A : Type} (l : list (option A)) : option (list A) :=
  match l with
  | [] => Some []
  | x :: l' => a <- x;; more <- collect l';; Some (a :: more)
  end.

(** [extract_all_features] on the text of one module: [__init__] splits the
    text, then one row per entry of [self.functions].  The result is the
    list [features] from which the method builds its DataFrame. *)
Definition extract_all_features (ir_content : text) : option (list row) :=
  let functions := split_into_functions ir_content in
  collect (map (fun kv => feature_row functions (fst kv) (snd kv)) functions).

(** The same loop over a function mapping that is given. *)
Definition extract_rows (functions : list (text * text))
    : option (list row) :=
  collect (map (fun kv => feature_row functions (fst kv) (snd kv)) functions).

Definition lookup (k : string) (r : row) : option value :=
  dict_get String.eqb k r.

(** * Vocabulary of the statements *)

(** The character before the cursor once [u] has been read. *)
Definition prev_after (pv : option ascii) (u : text) : option ascii :=
  fold_left (fun _ x => Some x) u pv.

(** The keys of a row, in the order in which [extract_all_features] and the
    two [update] calls insert them. *)
Definition numeric_feature_keys : list string :=
  [ "instruction_per_block"; "successor_per_block"; "calls_no"; "is_local";
    "ret_count"; "fmul_count"; "fdiv_count"; "fadd_count"; "fsub_count";
    "avg_nested_loop_level"; "instr_per_loop";
    "block_with_multiple_succ_per_loop"; "max_loop_depth";
    "num_callsite_in_loop";
    "caller_height"; "call_usage"; "is_recursive"; "entry_block_freq";
    "max_callsite_block_freq" ]%string.

Definition feature_keys : list string :=
  "function_name"%string :: numeric_feature_keys.

(** The keys under which the sibling extractor [feature_extractor.py]
    ([get_memory_operations], [get_branch_info]) reports memory and branch
    counts. *)
Definition memory_branch_keys : list string :=
  [ "load_count"; "store_count"; "alloca_count";
    "conditional_branch_count"; "unconditional_branch_count" ]%string.

(** A key is present in a row with a number that is not negative. *)
Definition numeric_nonneg (k : string) (r : row) : Prop :=
  exists q, lookup k r = Some (VNum q) /\ (0 <= q)%Q.

(** ** Example inputs *)

(** A module whose only function has no label line, hence no basic block. *)
Definition module_no_blocks : text := txt "define void @f() {
  ret void
}
".

(** A text cut into a leading span and (separator, span) pairs. *)
Definition interleave (p0 : text) (segs : list (text * text)) : text :=
  p0 ++ concat (map (fun sp => fst sp ++ snd sp) segs).

(** A label line as [label_pattern] reads it: a newline, blanks, a name over
    [[\w.]] and a colon. *)
Definition label_line (sep : text) : Prop :=
  exists ws name,
    sep = nl :: ws ++ name ++ [":"%char]
    /\ forallb is_space ws = true
    /\ name <> [] /\ forallb is_name_char name = true.

(** Empty or whitespace-only. *)
Definition blank (t : text) : bool := forallb is_space t.

(** What the caller-height walk keeps true: the visited names are pairwise
    distinct and come from a finite stock [names]; the current function was
    found as the caller of the name visited last, and its name is none of
    the earlier ones. *)
Definition walk_inv (functions : list (text * text)) (names : list text)
    (cur : text) (visited : list text) : Prop :=
  NoDup visited /\ incl visited names /\ In (get_function_name cur) names
  /\ match visited with
     | [] => True
     | pn :: earlier =>
         (forall t, get_function_name t = pn ->
                    find_caller functions t = Some cur)
         /\ ~ In (get_function_name cur) earlier
     end.

(** A function that calls [B] twice and has one conditional branch. *)
Definition text_A : text := txt "define void @A(i1 %c) {
entry:
  call void @B()
  call void @B()
  br i1 %c, label %x, label %y
}".

(** A function that calls itself once. *)
Definition text_B : text := txt "define void @B() {
entry:
  call void @B()
  ret void
}".

(** The function mapping a split into [A] and [B] would be. *)
Definition functions_AB : list (text * text) :=
  [ (txt "A", text_A); (txt "B", text_B) ].

(** The module text with the two definitions [A] and [B]. *)
Definition module_AB : text :=
  text_A ++ [nl; nl] ++ text_B ++ [nl].

(** [t] holds a call instruction that refers to the name [n]: the word
    [call], then on the same line [@] and the name. *)
Definition calls_name (t n : text) : Prop :=
  exists a m b,
    t = a ++ txt "call" ++ m ++ "@"%char :: n ++ b
    /\ forallb not_nl m = true.

(** ** Braces *)

Definition count_char (c : ascii) (t : text) : nat :=
  length (filter (Ascii.eqb c) t).

Definition opens (t : text) : nat := count_char "{" t.
Definition closes (t : text) : nat := count_char "}" t.

(** Perfectly balanced: no closing brace without an open one before it, and
    none left open at the end. *)
Fixpoint balanced_from (depth : nat) (t : text) : bool :=
  match t with
  | [] => depth =? 0
  | x :: t' =>
      if Ascii.eqb x "{" then balanced_from (S depth) t'
      else if Ascii.eqb x "}" then
        match depth with
        | 0 => false
        | S d => balanced_from d t'
        end
      else balanced_from depth t'
  end.

Definition balanced (t : text) : bool := balanced_from 0 t.

(** The brace counter after one more character. *)
Definition bump (count : nat) (x : ascii) : nat :=
  if Ascii.eqb x "{" then count + 1
  else if Ascii.eqb x "}" then count - 1
  else count.

(** The scan as the specification words it, over the text that follows the
    anchor's first character: the counter goes up on an opening brace, down
    on a closing one, and the scan stops when the counter is 0 or the text
    ends.  [scan_len] is the number of characters scanned, [final_count]
    the counter at the stop. *)
Fixpoint scan_len (count : nat) (s : text) : nat :=
  match count, s with
  | 0, _ => 0
  | _, [] => 0
  | _, x :: s' => S (scan_len (bump count x) s')
  end.

Fixpoint final_count (count : nat) (s : text) : nat :=
  match count, s with
  | 0, _ => 0
  | _, [] => count
  | _, x :: s' => final_count (bump count x) s'
  end.

(** A function whose loop anchor sits inside the function's braces. *)
Definition text_loop : text := txt "define void @f() {
entry:
  br label %body
body: ; loop: header
  call void @g()
  br i1 %c, label %body, label %exit
}".

Definition header_loop : text := txt "loop: header
".

(** ** Symbol-reference tokens *)

(** [t] holds a symbol-reference token: an [@] followed by a character of
    [[\w.]]. *)
Definition token_start (t : text) : Prop :=
  exists a x b, t = a ++ "@"%char :: x :: b /\ is_name_char x = true.

Fixpoint has_token (t : text) : bool :=
  match t with
  | [] => false
  | c :: t' =>
      (Ascii.eqb c "@"
       && match t' with x :: _ => is_name_char x | [] => false end)
      || has_token t'
  end.

(** [name] is the first symbol-reference token of [t]: no token starts in
    [pre], and [name] is the whole run of [[\w.]] characters after the [@]. *)
Definition first_token (t pre name post : text) : Prop :=
  t = pre ++ "@"%char :: name ++ post
  /\ name <> [] /\ forallb is_name_char name = true
  /\ match post with [] => True | x :: _ => is_name_char x = false end
  /\ ~ token_start pre.

(** A region whose header line names no symbol, while its body does. *)
Definition text_headerless : text := txt "define void {
  call void @g()
}".

(** ** Metadata the extractor looks for *)

(** [s] occurs in [t]. *)
Definition substring (s t : text) : Prop := exists a b, t = a ++ s ++ b.

(** [t] holds a loop-marker anchor line: [loop:] and, later on the same
    line, the line's end. *)
Definition loop_anchor_line (t : text) : Prop :=
  exists a u b,
    t = a ++ txt "loop:" ++ u ++ nl :: b /\ forallb not_nl u = true.

(** [t] holds a profiling-count annotation: [!prof !] and a digit, and later
    on the same line [count:] and a digit. *)
Definition prof_count_annotation (t : text) : Prop :=
  exists a d m e b,
    t = a ++ txt "!prof !" ++ d :: m ++ txt "count:" ++ e :: b
    /\ is_digit d = true /\ forallb not_nl m = true /\ is_digit e = true.

(** The loop features of a function without loop. *)
Definition zero_loop_features : row :=
  [ ("avg_nested_loop_level", VNum 0); ("instr_per_loop", VNum 0);
    ("block_with_multiple_succ_per_loop", VNum 0);
    ("max_loop_depth", VNum 0); ("num_callsite_in_loop", VNum 0) ]%string.

(** ** Function regions *)

(** What the lookahead of [function_pattern] asks of the text [w] after a
    closing brace: a newline, blanks, then [define] or the end of the text. *)
Definition definition_ahead (w : text) : Prop :=
  exists ws w',
    w = nl :: ws ++ w' /\ forallb is_space ws = true
    /\ (w' = [] \/ exists w'', w' = txt "define" ++ w'').










(** * The rest of the code *)

(** ** Callers along a path *)

(** [path] lists the successive callers [_find_caller] reports, starting
    from the caller of [cur]. *)
Fixpoint caller_chain (functions : list (text * text)) (cur : text)
    (path : list text) : Prop :=
  match path with
  | [] => True
  | c :: p => find_caller functions cur = Some c /\ caller_chain functions c p
  end.

(** ** [process_directory] *)

(** [name.endswith(suffix)] *)
Definition ends_with (suffix name : text) : bool :=
  starts_with (rev suffix) (rev name).

(** A pandas DataFrame: the column labels in their order, and the records.
    The cell of a record under a column is what [lookup] finds there;
    nothing found is a missing value. *)
Record frame : Type := Frame {
  columns : list string;
  records : list row
}.

(** The labels of [more] that [cols] lacks, appended in their order. *)
Definition add_columns (cols more : list string) : list string :=
  fold_left
    (fun acc c => if existsb (String.eqb c) acc then acc else acc ++ [c])
    more cols.

(** [pd.DataFrame(features)] for a list of dicts: the columns are the keys in
    the order in which they first appear. *)
Definition DataFrame (features : list row) : frame :=
  Frame (fold_left (fun acc r => add_columns acc (map fst r)) features [])
        features.

(** [df[column] = scalar]: a new column comes last; a frame without record
    gets the column all the same. *)
Definition set_column (column : string) (v : value) (df : frame) : frame :=
  Frame (add_columns (columns df) [column])
        (map (dict_set String.eqb column v) (records df)).

(** [pd.concat(frames, ignore_index=True)]: the records one frame after the
    other, the columns of all frames in the order in which they first
    appear.  A frame without record still contributes its columns. *)
Definition pd_concat (frames : list frame) : frame :=
  Frame (fold_left (fun acc df => add_columns acc (columns df)) frames [])
        (flat_map records frames).

(** The body of the loop of [process_directory] for one name of the listing,
    with the text [open(...).read()] gives, or [None] when reading raises:
    the frames appended to [all_features].  A file whose processing raises
    is skipped by the [except]. *)
Definition process_file (file : text * option text) : list frame :=
  match snd file with
  | Some ir_content =>
      match extract_all_features ir_content with
      | Some features =>
          [ set_column "source_file" (VStr (fst file)) (DataFrame features) ]
      | None => []
      end
  | None => []
  end.

(** [process_directory] over what [os.listdir] returns; [None] stands for
    the exception raised when [all_features] is empty. *)
Definition process_directory (listing : list (text * option text))
    : option frame :=
  let files := filter (fun f => ends_with (txt ".ll") (fst f)) listing in
  let all_features := flat_map process_file files in
  if is_empty all_features then None else Some (pd_concat all_features).

(** ** [get_available_passes] of [generate_ir_and_passes.py] *)

(** [t.split('\n')] *)
Fixpoint split_lines (t : text) : list text :=
  match t with
  | [] => [[]]
  | c :: t' =>
      if Ascii.eqb c nl then [] :: split_lines t'
      else match split_lines t' with
           | line :: lines => (c :: line) :: lines
           | [] => [[c]]
           end
  end.

(** The loop over the lines of [result.stdout]. *)
Definition parse_passes (stdout : text) : list text :=
  map strip
    (filter (fun line => negb (is_empty (strip line))
                         && negb (starts_with [" "%char] line))
            (split_lines stdout)).

(** [get_available_passes], given the standard output of the [opt] run, or
    [None] when running it raises. *)
Definition get_available_passes (stdout : option text) : list text :=
  match stdout with
  | Some out => parse_passes out
  | None => []
  end.

(** ** More example inputs *)

(** A function nobody calls, and one that calls a function with a longer
    name. *)
Definition text_f : text := txt "define void @f() {
  ret void
}".

Definition text_calls_foo : text := txt "define void @g() {
  call void @foo()
  ret void
}".

Definition functions_g_f : list (text * text) :=
  [ (txt "g", text_calls_foo); (txt "f", text_f) ].

(** Three functions calling each other in a ring: [r1] calls [r0], [r2]
    calls [r1], [r0] calls [r2]. *)
Definition text_r0 : text := txt "define void @r0() {
  call void @r2()
}".
Definition text_r1 : text := txt "define void @r1() {
  call void @r0()
}".
Definition text_r2 : text := txt "define void @r2() {
  call void @r1()
}".
Definition functions_ring : list (text * text) :=
  [ (txt "r0", text_r0); (txt "r1", text_r1); (txt "r2", text_r2) ].

(** A chain: [c2] calls [c1], [c1] calls [c0], nobody calls [c2]. *)
Definition text_c0 : text := txt "define void @c0() {
  ret void
}".
Definition text_c1 : text := txt "define void @c1() {
  call void @c0()
}".
Definition text_c2 : text := txt "define void @c2() {
  call void @c1()
}".
Definition functions_chain : list (text * text) :=
  [ (txt "c0", text_c0); (txt "c1", text_c1); (txt "c2", text_c2) ].

(** A directory listing: two modules, a file that cannot be read and a file
    of another kind. *)
Definition listing_example : list (text * option text) :=
  [ (txt "a.ll", Some module_AB); (txt "notes.txt", Some (txt "define"));
    (txt "b.ll", None); (txt "c.ll", Some module_no_blocks) ].

(** A name of the listing that [process_directory] passes over: it does not
    end in [.ll], or reading the file raises. *)
Definition skipped (f : text * option text) : Prop :=
  ends_with (txt ".ll") (fst f) = false \/ snd f = None.

(** [name], with the text [ir], is the first file of the listing that is
    processed. *)
Definition first_processed (listing : list (text * option text))
    (name ir : text) : Prop :=
  exists l1 l2,
    listing = l1 ++ (name, Some ir) :: l2
    /\ Forall skipped l1
    /\ ends_with (txt ".ll") name = true.

(** A listing that starts with a module without any function. *)
Definition listing_empty_first : list (text * option text) :=
  [ (txt "README", None);
    (txt "e.ll", Some (txt "; no function here
"));
    (txt "c.ll", Some module_no_blocks) ].

(** What [opt --print-passes] prints: section titles, indented entries. *)
Definition passes_output : text := txt "Module passes:
  always-inline
Function passes:
	adce

  dce
".

(** Two functions that call each other. *)
Definition text_p : text := txt "define void @p() {
  call void @q()
}".
Definition text_q : text := txt "define void @q() {
  call void @p()
}".
Definition functions_pq : list (text * text) :=
  [ (txt "p", text_p); (txt "q", text_q) ].

(** A function whose call to itself passes a global. *)
Definition text_call_global : text := txt "define void @f(ptr %p) {
entry:
  call void @f(ptr @g)
  ret void
}".

(** * Properties of the matcher *)



Lemma prev_after_app pv u v :
  prev_after pv (u ++ v) = prev_after (prev_after pv u) v.
Proof. unfold prev_after. apply fold_left_app. Qed.

Lemma cur_eta c : Cur (prev c) (rest c) (grp c) = c.
Proof. destruct c; reflexivity. Qed.

Lemma cur_ext c pv s g :
  prev c = pv -> rest c = s -> grp c = g -> c = Cur pv s g.
Proof. intros <- <- <-. symmetry. apply cur_eta. Qed.

Lemma ascii_eqb_true a b : Ascii.eqb a b = true <-> a = b.
Proof. apply Ascii.eqb_eq. Qed.

Lemma in_run_seq r1 r2 c c' :
  In c' (run (Seq r1 r2) c) <->
  exists c1, In c1 (run r1 c) /\ In c' (run r2 c1).
Proof. simpl. apply in_flat_map. Qed.

Lemma in_run_alt r1 r2 c c' :
  In c' (run (Alt r1 r2) c) <-> In c' (run r1 c) \/ In c' (run r2 c).
Proof. simpl. apply in_app_iff. Qed.

Lemma in_run_lit a c c' :
  In c' (run (Lit a) c) <->
  rest c = a :: rest c' /\ prev c' = Some a /\ grp c' = grp c.
Proof.
  simpl. destruct (rest c) as [|x s'] eqn:E.
  - split; [intros [] | intros [H _]; discriminate].
  - destruct (Ascii.eqb x a) eqn:Ex.
    + apply ascii_eqb_true in Ex. subst x. split.
      * intros [<-|[]]. simpl. auto.
      * intros (H1 & H2 & H3). left. injection H1 as H1. symmetry.
        apply cur_ext; auto.
    + split; [intros [] |]. intros (H1 & _). injection H1 as H1 _. subst x.
      rewrite Ascii.eqb_refl in Ex. discriminate.
Qed.

Lemma in_run_cls p c c' :
  In c' (run (Cls p) c) <->
  exists x, rest c = x :: rest c' /\ p x = true /\ prev c' = Some x
            /\ grp c' = grp c.
Proof.
  simpl. destruct (rest c) as [|x s'] eqn:E.
  - split; [intros [] | intros (y & H & _); discriminate].
  - destruct (p x) eqn:Ex.
    + split.
      * intros [<-|[]]. exists x. simpl. auto.
      * intros (y & H1 & H2 & H3 & H4). left. injection H1 as -> H1.
        symmetry. apply cur_ext; auto.
    + split; [intros [] |]. intros (y & H1 & H2 & _).
      injection H1 as -> _. congruence.
Qed.

Lemma in_star_run p pv s g c' :
  In c' (star_run p pv s g) <->
  exists u, s = u ++ rest c' /\ forallb p u = true
            /\ prev c' = prev_after pv u /\ grp c' = g.
Proof.
  revert pv. induction s as [|x s IH]; intros pv; simpl.
  - split.
    + intros [<-|[]]. exists []. simpl. auto.
    + intros (u & H1 & H2 & H3 & H4). left.
      symmetry in H1. apply app_eq_nil in H1. destruct H1 as [-> H1].
      symmetry. apply cur_ext; auto.
  - assert (Hhere : forall c0, c0 = c' ->
              c0 = Cur pv (x :: s) g ->
              exists u, x :: s = u ++ rest c' /\ forallb p u = true
                        /\ prev c' = prev_after pv u /\ grp c' = g).
    { intros c0 <- ->. exists []. simpl. auto. }
    destruct (p x) eqn:Ex.
    + rewrite in_app_iff, IH. split.
      * intros [(u & H1 & H2 & H3 & H4) | [H|[]]].
        -- exists (x :: u). simpl. rewrite Ex, H2. subst s. auto.
        -- eapply Hhere; eauto.
      * intros (u & H1 & H2 & H3 & H4). destruct u as [|y u].
        -- right. left. symmetry. apply cur_ext; auto.
        -- left. simpl in H1, H2. injection H1 as -> H1.
           apply andb_true_iff in H2. destruct H2 as [_ H2].
           exists u. auto.
    + split.
      * intros [H|[]]. eapply Hhere; eauto.
      * intros (u & H1 & H2 & H3 & H4). destruct u as [|y u].
        -- left. symmetry. apply cur_ext; auto.
        -- simpl in H1, H2. injection H1 as -> H1. rewrite Ex in H2.
           discriminate.
Qed.

Lemma in_lazy_run p pv s g c' :
  In c' (lazy_run p pv s g) <->
  exists u, s = u ++ rest c' /\ forallb p u = true
            /\ prev c' = prev_after pv u /\ grp c' = g.
Proof.
  revert pv. induction s as [|x s IH]; intros pv; simpl.
  - split.
    + intros [<-|[]]. exists []. simpl. auto.
    + intros (u & H1 & H2 & H3 & H4). left.
      symmetry in H1. apply app_eq_nil in H1. destruct H1 as [-> H1].
      symmetry. apply cur_ext; auto.
  - split.
    + intros [<-|H].
      * exists []. simpl. auto.
      * destruct (p x) eqn:Ex; [|destruct H].
        apply IH in H. destruct H as (u & H1 & H2 & H3 & H4).
        exists (x :: u). simpl. rewrite Ex, H2. subst s. auto.
    + intros (u & H1 & H2 & H3 & H4). destruct u as [|y u].
      * left. symmetry. apply cur_ext; auto.
      * right. simpl in H1, H2. injection H1 as -> H1.
        apply andb_true_iff in H2. destruct H2 as [-> H2].
        apply IH. exists u. auto.
Qed.

Lemma in_run_star p c c' :
  In c' (run (Star p) c) <->
  exists u, rest c = u ++ rest c' /\ forallb p u = true
            /\ prev c' = prev_after (prev c) u /\ grp c' = grp c.
Proof. simpl. apply in_star_run. Qed.

Lemma in_run_lazy p c c' :
  In c' (run (LazyStar p) c) <->
  exists u, rest c = u ++ rest c' /\ forallb p u = true
            /\ prev c' = prev_after (prev c) u /\ grp c' = grp c.
Proof. simpl. apply in_lazy_run. Qed.

Lemma in_run_plus p c c' :
  In c' (run (Plus p) c) <->
  exists x u, rest c = x :: u ++ rest c' /\ forallb p (x :: u) = true
              /\ prev c' = prev_after (prev c) (x :: u) /\ grp c' = grp c.
Proof.
  unfold Plus. rewrite in_run_seq. split.
  - intros (c1 & H1 & H2). apply in_run_cls in H1. apply in_run_star in H2.
    destruct H1 as (x & E1 & Px & Pv & G1).
    destruct H2 as (u & E2 & Pu & Pv2 & G2).
    exists x, u. simpl. rewrite Px, Pu, E1, E2, Pv2, Pv, G2, G1. auto.
  - intros (x & u & E & P & Pv & G). simpl in P.
    apply andb_true_iff in P. destruct P as [Px Pu].
    exists (Cur (Some x) (u ++ rest c') (grp c)). split.
    + apply in_run_cls. exists x. simpl. auto.
    + apply in_run_star. exists u. simpl. auto.
Qed.

Lemma in_run_str w c c' :
  In c' (run (Str w) c) <->
  rest c = w ++ rest c' /\ prev c' = prev_after (prev c) w /\ grp c' = grp c.
Proof.
  revert c. induction w as [|a w IH]; intros c.
  - simpl. split.
    + intros [<-|[]]. auto.
    + intros (H1 & H2 & H3). left. destruct c, c'. simpl in *. congruence.
  - change (Str (a :: w)) with (Seq (Lit a) (Str w)). rewrite in_run_seq. split.
    + intros (c1 & H1 & H2). apply in_run_lit in H1. apply IH in H2.
      destruct H1 as (E1 & P1 & G1). destruct H2 as (E2 & P2 & G2).
      simpl. rewrite E1, E2, P2, P1, G2, G1. auto.
    + intros (E & P & G). exists (Cur (Some a) (w ++ rest c') (grp c)). split.
      * apply in_run_lit. simpl. auto.
      * apply IH. simpl. auto.
Qed.

(** A match only consumes text: what is left is a suffix of what was there. *)
Lemma run_suffix r : forall c c',
  In c' (run r c) -> exists u, rest c = u ++ rest c'.
Proof.
  induction r as [|a|p|r1 IHr1 r2 IHr2|r1 IHr1 r2 IHr2|p|p|r IHr| | |r IHr];
    intros c c' H.
  - simpl in H. destruct H as [<-|[]]. exists []. reflexivity.
  - apply in_run_lit in H. destruct H as (E & _). exists [a]. rewrite E.
    reflexivity.
  - apply in_run_cls in H. destruct H as (x & E & _). exists [x]. rewrite E.
    reflexivity.
  - apply in_run_seq in H. destruct H as (c1 & H1 & H2).
    apply IHr1 in H1. apply IHr2 in H2. destruct H1 as (u & E1).
    destruct H2 as (v & E2). exists (u ++ v). rewrite E1, E2.
    apply app_assoc.
  - apply in_run_alt in H. destruct H; eauto.
  - apply in_run_star in H. destruct H as (u & E & _). eauto.
  - apply in_run_lazy in H. destruct H as (u & E & _). eauto.
  - simpl in H. destruct (run r c); [contradiction|].
    destruct H as [<-|[]]. exists []. reflexivity.
  - simpl in H. destruct (rest c) eqn:E; [|contradiction].
    destruct H as [<-|[]]. exists []. rewrite E. reflexivity.
  - simpl in H. destruct (xorb _ _); [|contradiction].
    destruct H as [<-|[]]. exists []. reflexivity.
  - simpl in H. apply in_map_iff in H. destruct H as (c1 & <- & H).
    simpl. eauto.
Qed.

Lemma hd_error_in {A} (l : list A) x : hd_error l = Some x -> In x l.
Proof. destruct l; simpl; intros H; inversion H. auto. Qed.

Lemma match_at_in r pv s c :
  match_at r pv s = Some c -> In c (run r (Cur pv s None)).
Proof. apply hd_error_in. Qed.

Lemma match_at_suffix r pv s c :
  match_at r pv s = Some c -> exists u, s = u ++ rest c.
Proof. intros H. apply match_at_in in H. apply run_suffix in H. exact H. Qed.

Lemma firstn_app_exact {A} (u v : list A) :
  firstn (length (u ++ v) - length v) (u ++ v) = u.
Proof.
  rewrite length_app, Nat.add_sub. rewrite firstn_app, Nat.sub_diag.
  rewrite firstn_all. simpl. apply app_nil_r.
Qed.

Lemma mk_match_text r pv s c off :
  match_at r pv s = Some c ->
  exists u, s = u ++ rest c /\ m_text (mk_match off s c) = u
            /\ length s - length (rest c) = length u.
Proof.
  intros H. destruct (match_at_suffix _ _ _ H) as (u & E). exists u.
  split; [exact E|]. simpl. remember (rest c) as k eqn:Ek. clear Ek H.
  subst s. split; [apply firstn_app_exact|].
  rewrite length_app. lia.
Qed.

(** Every match that [finditer] reports is a match of the pattern at its
    start offset, and its text is the stretch of input consumed there. *)
Lemma scan_in r : forall s off pv skip m,
  In m (scan r off pv s skip) ->
  exists a u b c,
    s = a ++ u ++ b /\ m_start m = off + length a /\ m_text m = u
    /\ m_grp m = grp c /\ rest c = b
    /\ match_at r (prev_after pv a) (u ++ b) = Some c.
Proof.
  induction s as [|x s IH]; intros off pv skip m H.
  - simpl in H. destruct skip; [|contradiction].
    destruct (match_at r pv []) as [c|] eqn:E; [|contradiction].
    destruct H as [<-|[]].
    destruct (mk_match_text _ _ _ off E) as (u & E1 & E2 & _).
    exists [], u, (rest c), c. simpl. rewrite <- E1.
    repeat split; auto.
  - simpl in H. destruct skip as [|k].
    + destruct (match_at r pv (x :: s)) as [c|] eqn:E.
      * destruct H as [<-|H].
        -- destruct (mk_match_text _ _ _ off E) as (u & E1 & E2 & _).
           exists [], u, (rest c), c. simpl. rewrite <- E1.
           repeat split; auto.
        -- apply IH in H. destruct H as (a & u & b & c0 & H1 & H2 & H3).
           exists (x :: a), u, b, c0. simpl. subst s.
           repeat split; try tauto. lia.
      * apply IH in H. destruct H as (a & u & b & c0 & H1 & H2 & H3).
        exists (x :: a), u, b, c0. simpl. subst s.
        repeat split; try tauto. lia.
    + apply IH in H. destruct H as (a & u & b & c0 & H1 & H2 & H3).
      exists (x :: a), u, b, c0. simpl. subst s.
      repeat split; try tauto. lia.
Qed.

Lemma finditer_in r t m :
  In m (finditer r t) ->
  exists a u b c,
    t = a ++ u ++ b /\ m_start m = length a /\ m_text m = u
    /\ m_grp m = grp c /\ rest c = b
    /\ match_at r (prev_after None a) (u ++ b) = Some c.
Proof. intros H. apply scan_in in H. exact H. Qed.

(** Where the pattern matches nowhere in a prefix, the scan passes over it. *)
Lemma scan_skip_prefix r : forall a off pv b,
  (forall a1 a2, a = a1 ++ a2 -> a2 <> [] ->
                 match_at r (prev_after pv a1) (a2 ++ b) = None) ->
  scan r off pv (a ++ b) 0 = scan r (off + length a) (prev_after pv a) b 0.
Proof.
  induction a as [|x a IH]; intros off pv b H.
  - simpl. rewrite Nat.add_0_r. reflexivity.
  - simpl app. cbn [scan].
    assert (H0 := H [] (x :: a) eq_refl ltac:(discriminate)).
    simpl in H0. rewrite H0. rewrite IH.
    + simpl. f_equal. lia.
    + intros a1 a2 E Hne. apply (H (x :: a1) a2); [|exact Hne].
      simpl. rewrite E. reflexivity.
Qed.

(** [finditer] finds nothing exactly when the pattern matches nowhere. *)
Lemma scan_nil r : forall s off pv,
  (forall a b, s = a ++ b -> match_at r (prev_after pv a) b = None) ->
  scan r off pv s 0 = [].
Proof.
  induction s as [|x s IH]; intros off pv H.
  - assert (H0 := H [] [] eq_refl). simpl in H0. simpl. rewrite H0.
    reflexivity.
  - assert (H0 := H [] (x :: s) eq_refl). simpl in H0. cbn [scan].
    rewrite H0. apply IH. intros a b E. apply (H (x :: a) b). simpl. rewrite E.
    reflexivity.
Qed.

Lemma search_none r t :
  (forall a b, t = a ++ b -> match_at r (prev_after None a) b = None) ->
  search r t = None.
Proof. intros H. unfold search, finditer. rewrite scan_nil; auto. Qed.

(** [re.search] reports the leftmost position at which the pattern matches,
    and there the first way the matcher finds. *)
Lemma search_leftmost r a b c :
  (forall a1 a2, a = a1 ++ a2 -> a2 <> [] ->
                 match_at r (prev_after None a1) (a2 ++ b) = None) ->
  match_at r (prev_after None a) b = Some c ->
  search r (a ++ b) = Some (mk_match (length a) b c).
Proof.
  intros H E. unfold search, finditer. rewrite scan_skip_prefix; auto.
  destruct b as [|x b]; cbn [scan]; rewrite E; reflexivity.
Qed.

(** * The feature rows *)

Lemma truediv_returns a b :
  b <> 0 -> exists q, truediv a b = Some q /\ (0 <= q)%Q.
Proof.
  intros Hb. destruct b as [|b]; [contradiction|].
  eexists. split; [reflexivity|]. unfold Qle. simpl. lia.
Qed.

Lemma truediv_by_zero a : truediv a 0 = None.
Proof. reflexivity. Qed.

Lemma nat_nonneg n : (0 <= inject_Z (Z.of_nat n))%Q.
Proof. unfold inject_Z, Qle. simpl. lia. Qed.

Lemma int_of_digits_nonneg t : (0 <= int_of_digits t)%Z.
Proof.
  unfold int_of_digits.
  assert (G : forall acc, (0 <= acc)%Z ->
    (0 <= fold_left (fun a c => 10 * a + Z.of_nat (nat_of_ascii c - 48)) t acc)%Z).
  { induction t as [|c t IH]; intros acc Hacc; cbn [fold_left];
      [exact Hacc|].
    apply IH. lia. }
  apply G. lia.
Qed.

Lemma Zmax_list_nonneg l : (0 <= Zmax_list l)%Z.
Proof. induction l; simpl; lia. Qed.

Lemma inject_Z_nonneg z : (0 <= z)%Z -> (0 <= inject_Z z)%Q.
Proof. intros H. unfold inject_Z, Qle. simpl. lia. Qed.

(** The two averages always return: the division is reached with a block
    count that is not 0 only. *)
Lemma instruction_per_block_returns t :
  exists q, get_instruction_per_block t = Some q /\ (0 <= q)%Q.
Proof.
  unfold get_instruction_per_block.
  destruct (get_basic_blocks t) as [|b bs]; cbn [is_empty].
  - exists 0%Q. split; [reflexivity | apply Qle_refl].
  - apply truediv_returns. discriminate.
Qed.

Lemma successor_per_block_returns t :
  exists q, get_successor_per_block t = Some q /\ (0 <= q)%Q.
Proof.
  unfold get_successor_per_block.
  destruct (get_basic_blocks t) as [|b bs]; cbn [is_empty].
  - exists 0%Q. split; [reflexivity | apply Qle_refl].
  - apply truediv_returns. discriminate.
Qed.

Lemma loop_features_shape t :
  exists v1 v2 v3 v4 v5,
    get_loop_features t =
      Some [ ("avg_nested_loop_level", VNum v1); ("instr_per_loop", VNum v2);
             ("block_with_multiple_succ_per_loop", VNum v3);
             ("max_loop_depth", VNum v4);
             ("num_callsite_in_loop", VNum v5) ]%string
    /\ (0 <= v1)%Q /\ (0 <= v2)%Q /\ (0 <= v3)%Q /\ (0 <= v4)%Q /\ (0 <= v5)%Q.
Proof.
  unfold get_loop_features.
  destruct (findall loop_header_pattern t) as [|h hs]; cbn [is_empty].
  - exists 0%Q, 0%Q, 0%Q, 0%Q, 0%Q. repeat split; apply Qle_refl.
  - cbn [map is_empty length truediv bind].
    do 5 eexists. split; [reflexivity|].
    repeat split; first [apply nat_nonneg | unfold Qle; simpl; lia].
Qed.

Lemma call_graph_features_shape fs t :
  exists v1 v2 v3 v4 v5,
    get_call_graph_features fs t =
      [ ("caller_height", VNum v1); ("call_usage", VNum v2);
        ("is_recursive", VNum v3); ("entry_block_freq", VNum v4);
        ("max_callsite_block_freq", VNum v5) ]%string
    /\ (0 <= v1)%Q /\ (0 <= v2)%Q /\ (0 <= v3)%Q /\ (0 <= v4)%Q /\ (0 <= v5)%Q.
Proof.
  unfold get_call_graph_features. do 5 eexists. split; [reflexivity|].
  repeat split; try apply nat_nonneg.
  - apply inject_Z_nonneg.
    destruct (search prof_pattern t); [|lia].
    destruct (search count_pattern _); [|lia]. apply int_of_digits_nonneg.
  - apply inject_Z_nonneg.
    destruct (is_empty _); [lia | apply Zmax_list_nonneg].
Qed.

(** The five instruction names of the source are plain words. *)
Lemma count_specific_returns t (w : string) :
  existsb is_special (txt w) = false ->
  count_specific_instructions t w
  = Some (count_matches (word_pattern (txt w)) t).
Proof.
  intros H. unfold count_specific_instructions, instruction_pattern.
  rewrite H. reflexivity.
Qed.

(** The row of a function, written out: building it never raises. *)
Lemma feature_row_shape fs n t :
  exists a1 a2 l1 l2 l3 l4 l5 c1 c2 c3 c4 c5,
    get_instruction_per_block t = Some a1
    /\ get_successor_per_block t = Some a2
    /\ get_loop_features t =
      Some [ ("avg_nested_loop_level", VNum l1); ("instr_per_loop", VNum l2);
             ("block_with_multiple_succ_per_loop", VNum l3);
             ("max_loop_depth", VNum l4);
             ("num_callsite_in_loop", VNum l5) ]%string
    /\ get_call_graph_features fs t =
      [ ("caller_height", VNum c1); ("call_usage", VNum c2);
        ("is_recursive", VNum c3); ("entry_block_freq", VNum c4);
        ("max_callsite_block_freq", VNum c5) ]%string
    /\ feature_row fs n t =
      Some [ ("function_name", VStr n);
        ("instruction_per_block", VNum a1);
        ("successor_per_block", VNum a2);
        ("calls_no", VNat (get_calls_no t));
        ("is_local", VNat (is_local t));
        ("ret_count", VNat (count_matches (word_pattern (txt "ret")) t));
        ("fmul_count", VNat (count_matches (word_pattern (txt "fmul")) t));
        ("fdiv_count", VNat (count_matches (word_pattern (txt "fdiv")) t));
        ("fadd_count", VNat (count_matches (word_pattern (txt "fadd")) t));
        ("fsub_count", VNat (count_matches (word_pattern (txt "fsub")) t));
        ("avg_nested_loop_level", VNum l1); ("instr_per_loop", VNum l2);
        ("block_with_multiple_succ_per_loop", VNum l3);
        ("max_loop_depth", VNum l4); ("num_callsite_in_loop", VNum l5);
        ("caller_height", VNum c1); ("call_usage", VNum c2);
        ("is_recursive", VNum c3); ("entry_block_freq", VNum c4);
        ("max_callsite_block_freq", VNum c5) ]%string
    /\ ((0 <= a1)%Q /\ (0 <= a2)%Q)
    /\ ((0 <= l1)%Q /\ (0 <= l2)%Q /\ (0 <= l3)%Q /\ (0 <= l4)%Q /\ (0 <= l5)%Q)
    /\ ((0 <= c1)%Q /\ (0 <= c2)%Q /\ (0 <= c3)%Q /\ (0 <= c4)%Q /\ (0 <= c5)%Q).
Proof.
  destruct (instruction_per_block_returns t) as (a1 & E1 & H1).
  destruct (successor_per_block_returns t) as (a2 & E2 & H2).
  destruct (loop_features_shape t) as (l1 & l2 & l3 & l4 & l5 & EL & HL).
  destruct (call_graph_features_shape fs t)
    as (c1 & c2 & c3 & c4 & c5 & EC & HC).
  exists a1, a2, l1, l2, l3, l4, l5, c1, c2, c3, c4, c5.
  split; [exact E1|]. split; [exact E2|]. split; [exact EL|].
  split; [exact EC|]. split; [|split; [split; assumption | split; assumption]].
  unfold feature_row. rewrite E1, E2, EL, EC.
  rewrite !count_specific_returns by reflexivity. reflexivity.
Qed.

Lemma feature_row_returns fs n t : exists r, feature_row fs n t = Some r.
Proof.
  destruct (feature_row_shape fs n t)
    as (a1 & a2 & l1 & l2 & l3 & l4 & l5 & c1 & c2 & c3 & c4 & c5
        & _ & _ & _ & _ & E & _).
  eauto.
Qed.

(** The loop over the entries returns when every body does, with one result
    per entry, in order. *)
Lemma collect_returns {A B} (f : A -> option B) (l : list A) :
  (forall x, In x l -> exists b, f x = Some b) ->
  exists bs, collect (map f l) = Some bs
             /\ Forall2 (fun x b => f x = Some b) l bs.
Proof.
  induction l as [|x l IH]; intros H.
  - exists []. split; [reflexivity | constructor].
  - destruct (H x (or_introl eq_refl)) as (b & Eb).
    destruct IH as (bs & E & F); [intros y Hy; apply H; right; exact Hy|].
    exists (b :: bs). cbn [map collect]. rewrite Eb, E. split; [reflexivity|].
    constructor; assumption.
Qed.

Lemma Forall2_in_right {A B} (P : A -> B -> Prop) l bs b :
  Forall2 P l bs -> In b bs -> exists x, In x l /\ P x b.
Proof.
  induction 1 as [|x y l bs Hxy F IH]; intros Hin; [destruct Hin|].
  destruct Hin as [<-|Hin].
  - exists x. split; [left; reflexivity | exact Hxy].
  - destruct (IH Hin) as (x' & Hx' & Hp). exists x'. split; [right|]; assumption.
Qed.

Lemma Forall2_in_left {A B} (P : A -> B -> Prop) l bs x :
  Forall2 P l bs -> In x l -> exists b, In b bs /\ P x b.
Proof.
  induction 1 as [|x' y l bs Hxy F IH]; intros Hin; [destruct Hin|].
  destruct Hin as [<-|Hin].
  - exists y. split; [left; reflexivity | exact Hxy].
  - destruct (IH Hin) as (b & Hb & Hp). exists b. split; [right|]; assumption.
Qed.

Lemma extract_rows_returns fs :
  exists rows,
    extract_rows fs = Some rows
    /\ Forall2 (fun kv r => feature_row fs (fst kv) (snd kv) = Some r) fs rows.
Proof.
  unfold extract_rows. apply collect_returns.
  intros kv _. apply feature_row_returns.
Qed.

(** [extract_all_features] always returns, with one row per entry of the
    function mapping. *)
Lemma extract_all_features_returns ir :
  exists rows,
    extract_all_features ir = Some rows
    /\ Forall2 (fun kv r =>
                  feature_row (split_into_functions ir) (fst kv) (snd kv)
                  = Some r)
               (split_into_functions ir) rows.
Proof. apply extract_rows_returns. Qed.

Lemma in_extract_all_features ir rows r :
  extract_all_features ir = Some rows ->
  In r rows <->
  exists n t, In (n, t) (split_into_functions ir)
              /\ feature_row (split_into_functions ir) n t = Some r.
Proof.
  intros E. destruct (extract_all_features_returns ir) as (rows' & E' & F).
  assert (rows' = rows) by congruence. subst rows'. split.
  - intros H. destruct (@Forall2_in_right _ _ _ _ _ _ F H) as ([n t] & Hin & Hp).
    exists n, t. auto.
  - intros (n & t & Hin & Hp).
    destruct (@Forall2_in_left _ _ _ _ _ _ F Hin) as (b & Hb & Hp').
    cbn [fst snd] in Hp'. congruence.
Qed.

(** C8: a function text without basic block has 0 for both per-block
    averages and the function still has its row.  The guard returns before
    the division: the quotient by the block count, which is 0 here, would
    raise. *)
Theorem zero_blocks_give_zero_averages (ir n t : text) :
  In (n, t) (split_into_functions ir) ->
  get_basic_blocks t = [] ->
  get_instruction_per_block t = Some 0%Q
  /\ get_successor_per_block t = Some 0%Q
  /\ (forall total, truediv total (length (get_basic_blocks t)) = None)
  /\ exists rows r,
       extract_all_features ir = Some rows /\ In r rows
       /\ lookup "function_name" r = Some (VStr n)
       /\ lookup "instruction_per_block" r = Some (VNum 0)
       /\ lookup "successor_per_block" r = Some (VNum 0).
Proof.
  intros Hin Hb.
  assert (E1 : get_instruction_per_block t = Some 0%Q).
  { unfold get_instruction_per_block. rewrite Hb. reflexivity. }
  assert (E2 : get_successor_per_block t = Some 0%Q).
  { unfold get_successor_per_block. rewrite Hb. reflexivity. }
  split; [exact E1|]. split; [exact E2|]. split.
  { intros total. rewrite Hb. apply truediv_by_zero. }
  destruct (extract_all_features_returns ir) as (rows & E & F).
  destruct (@Forall2_in_left _ _ _ _ _ _ F Hin) as (r & Hr & Er). cbn [fst snd] in Er.
  exists rows, r. split; [exact E|]. split; [exact Hr|].
  destruct (feature_row_shape (split_into_functions ir) n t)
    as (a1 & a2 & l1 & l2 & l3 & l4 & l5 & c1 & c2 & c3 & c4 & c5
        & A1 & A2 & _ & _ & Erow & _).
  rewrite Erow in Er. injection Er as <-.
  assert (a1 = 0%Q) by congruence. assert (a2 = 0%Q) by congruence.
  subst a1 a2. repeat split.
Qed.

Lemma zero_blocks_give_zero_averages_witness :
  get_instruction_per_block (txt "define void @f() {
  ret void
}") = Some 0%Q
  /\ get_successor_per_block (txt "define void @f() {
  ret void
}") = Some 0%Q
  /\ (forall total,
        truediv total (length (get_basic_blocks (txt "define void @f() {
  ret void
}"))) = None)
  /\ exists rows r,
       extract_all_features module_no_blocks = Some rows /\ In r rows
       /\ lookup "function_name" r = Some (VStr (txt "f"))
       /\ lookup "instruction_per_block" r = Some (VNum 0)
       /\ lookup "successor_per_block" r = Some (VNum 0).
Proof.
  apply (zero_blocks_give_zero_averages module_no_blocks).
  - vm_compute. left. reflexivity.
  - vm_compute. reflexivity.
Defined.

(** * [re.split] and the basic-block segmenter *)

Lemma skipn_firstn_prefix {A} (pre rest0 : list A) pos :
  pos <= length pre ->
  skipn pos (pre ++ rest0)
  = firstn (length pre - pos) (skipn pos (pre ++ rest0)) ++ rest0.
Proof.
  intros H. rewrite skipn_app.
  replace (pos - length pre) with 0 by lia. simpl.
  rewrite firstn_app.
  replace (length pre - pos - length (skipn pos pre)) with 0
    by (rewrite length_skipn; lia).
  simpl. rewrite app_nil_r. rewrite firstn_all2; [reflexivity|].
  rewrite length_skipn. lia.
Qed.

Lemma skipn_past_prefix {A} (pre u rest0 : list A) :
  skipn (length pre + length u) (pre ++ u ++ rest0) = rest0.
Proof.
  rewrite app_assoc. rewrite <- length_app.
  rewrite skipn_app, Nat.sub_diag, skipn_all. reflexivity.
Qed.

(** The pieces [re.split] returns and the matches between them tile the
    text from the position where the first piece starts. *)
Lemma pieces_scan r : forall s pre off pv skip pos t,
  t = pre ++ s -> length pre = off -> skip <= length s ->
  (skip = 0 -> pos <= off) -> (skip <> 0 -> pos = off + skip) ->
  exists p0 segs,
    pieces pos (scan r off pv s skip) t = p0 :: map snd segs
    /\ map m_text (scan r off pv s skip) = map fst segs
    /\ skipn pos t = interleave p0 segs.
Proof.
  unfold interleave.
  induction s as [|x s IH]; intros pre off pv skip pos t Et Eoff Hsk H0 H1.
  - rewrite app_nil_r in Et. subst pre.
    assert (skip = 0) by (simpl in Hsk; lia). subst skip.
    specialize (H0 eq_refl). simpl.
    destruct (match_at r pv []) as [c|] eqn:E.
    + destruct (mk_match_text _ _ _ off E) as (u & E1 & E2 & _).
      symmetry in E1. apply app_eq_nil in E1. destruct E1 as [-> _].
      exists (firstn (off - pos) (skipn pos t)), [([], [])].
      cbn [pieces map fst snd m_start]. rewrite E2. simpl.
      rewrite Nat.add_0_r, <- Eoff, skipn_all.
      repeat split. rewrite app_nil_r. rewrite firstn_all2; [reflexivity|].
      rewrite length_skipn. lia.
    + exists (skipn pos t), []. simpl. rewrite app_nil_r. auto.
  - assert (Et' : t = (pre ++ [x]) ++ s) by (rewrite <- app_assoc; exact Et).
    assert (Eoff' : length (pre ++ [x]) = S off)
      by (rewrite length_app; simpl; lia).
    simpl in Hsk. cbn [scan]. destruct skip as [|k].
    + specialize (H0 eq_refl).
      destruct (match_at r pv (x :: s)) as [c|] eqn:E.
      * destruct (mk_match_text _ _ _ off E) as (u & E1 & E2 & E3).
        assert (Hu : length u <= S (length s)).
        { assert (L : length (x :: s) = length (u ++ rest c))
            by (f_equal; exact E1).
          rewrite length_app in L. simpl in L. lia. }
        assert (Es : m_start (mk_match off (x :: s) c) = off) by reflexivity.
        rewrite E3. set (m := mk_match off (x :: s) c) in *. clearbody m.
        destruct (IH (pre ++ [x]) (S off) (Some x) (length u - 1)
                    (off + length u) t Et' Eoff')
          as (p0 & segs & P1 & P2 & P3); try lia.
        exists (firstn (off - pos) (skipn pos t)), ((u, p0) :: segs).
        cbn [pieces map fst snd]. rewrite Es, E2, P1, P2.
        repeat split. cbn [concat map fst snd].
        rewrite <- (app_assoc u p0). rewrite <- P3.
        rewrite Et, E1, <- Eoff. rewrite skipn_past_prefix.
        rewrite (skipn_firstn_prefix pre (u ++ rest c)) at 1 by lia.
        reflexivity.
      * apply (IH (pre ++ [x]) (S off) (Some x) 0 pos t Et' Eoff'); lia.
    + apply (IH (pre ++ [x]) (S off) (Some x) k pos t Et' Eoff'); try lia.
Qed.

Lemma re_split_tiles r t :
  exists p0 segs,
    re_split r t = p0 :: map snd segs
    /\ findall r t = map fst segs
    /\ t = interleave p0 segs.
Proof.
  destruct (@pieces_scan r t [] 0 None 0 0 t)
    as (p0 & segs & P1 & P2 & P3); try reflexivity; try lia.
  exists p0, segs. auto.
Qed.

Lemma lstrip_head t x r : lstrip t = x :: r -> is_space x = false.
Proof.
  induction t as [|c t IH]; simpl; [discriminate|].
  destruct (is_space c) eqn:E; [exact IH|].
  intros H. injection H as <- _. exact E.
Qed.

Lemma lstrip_nil t : lstrip t = [] <-> blank t = true.
Proof.
  unfold blank. induction t as [|c t IH]; simpl; [tauto|].
  destruct (is_space c); simpl; [exact IH|].
  split; discriminate.
Qed.

Lemma blank_rev t : blank (rev t) = blank t.
Proof.
  unfold blank. induction t as [|c t IH]; simpl; [reflexivity|].
  rewrite forallb_app, IH. simpl. rewrite andb_true_r. apply andb_comm.
Qed.

Lemma lstrip_blank t : blank (lstrip t) = blank t.
Proof.
  unfold blank. induction t as [|c t IH]; simpl; [reflexivity|].
  destruct (is_space c) eqn:E; simpl; [exact IH|]. rewrite E. reflexivity.
Qed.

Lemma strip_empty_iff_blank t : is_empty (strip t) = blank t.
Proof.
  unfold strip, rstrip.
  rewrite <- (lstrip_blank t), <- (blank_rev (lstrip t)).
  set (w := rev (lstrip t)).
  destruct (lstrip w) as [|x r] eqn:E.
  - simpl. symmetry. apply lstrip_nil. exact E.
  - assert (Hx := lstrip_head _ E).
    assert (Hb : blank w = false).
    { destruct (blank w) eqn:B; [|reflexivity].
      apply lstrip_nil in B. congruence. }
    rewrite Hb. simpl. destruct (rev r ++ [x]) eqn:E2; [|reflexivity].
    apply app_eq_nil in E2. destruct E2. discriminate.
Qed.


Lemma label_match_is_label_line t m :
  In m (finditer label_pattern t) -> label_line (m_text m).
Proof.
  intros H. apply finditer_in in H.
  destruct H as (a & u & b & c & _ & _ & Eu & _ & Er & Hm).
  apply match_at_in in Hm. unfold label_pattern in Hm.
  apply in_run_seq in Hm. destruct Hm as (c1 & H1 & Hm).
  apply in_run_seq in Hm. destruct Hm as (c2 & H2 & Hm).
  apply in_run_seq in Hm. destruct Hm as (c3 & H3 & H4).
  apply in_run_lit in H1. destruct H1 as (E1 & _). simpl in E1.
  apply in_run_star in H2. destruct H2 as (ws & E2 & Pws & _).
  apply in_run_plus in H3. destruct H3 as (x & nm & E3 & Pnm & _).
  apply in_run_lit in H4. destruct H4 as (E4 & _).
  rewrite E2, E3, E4, Er in E1.
  assert (E : u ++ b = (nl :: ws ++ (x :: nm) ++ [":"%char]) ++ b).
  { rewrite E1. simpl. f_equal. rewrite <- !app_assoc. simpl.
    rewrite <- app_assoc. reflexivity. }
  apply app_inv_tail in E. rewrite Eu, E.
  exists ws, (x :: nm). repeat split; auto. discriminate.
Qed.

Lemma basic_blocks_segmented_spans t :
  exists header segs,
    t = interleave header segs
    /\ get_basic_blocks t
       = map strip (filter (fun p => negb (blank p)) (map snd segs)).
Proof.
  destruct (re_split_tiles label_pattern t) as (header & segs & P1 & P2 & P3).
  exists header, segs. split; [exact P3|].
  unfold get_basic_blocks. rewrite P1. simpl tl. f_equal.
  apply filter_ext. intros p. rewrite strip_empty_iff_blank. reflexivity.
Qed.


(** * The caller-height walk *)

Lemma text_eqb_eq a b : text_eqb a b = true <-> a = b.
Proof.
  unfold text_eqb. destruct (list_eq_dec ascii_dec a b); split; congruence.
Qed.

Lemma in_set_iff n visited : in_set n visited = true <-> In n visited.
Proof.
  unfold in_set. rewrite existsb_exists. split.
  - intros (x & Hx & E). apply text_eqb_eq in E. subst. exact Hx.
  - intros H. exists n. split; [exact H|]. apply text_eqb_eq. reflexivity.
Qed.

Section HeightWalk.
Variable functions : list (text * text).

Let F := find_caller functions.
Let N := get_function_name.

(** The caller found depends on the text only through its name. *)
Lemma find_caller_by_name t t' : N t = N t' -> F t = F t'.
Proof. unfold F, N, find_caller. intros ->. reflexivity. Qed.

Lemma find_caller_in t c : F t = Some c -> In c (map snd functions).
Proof. unfold F, find_caller. intros H. apply find_some in H. tauto. Qed.

(** More fuel does not change a result. *)
Lemma height_loop_more_fuel : forall fuel fuel' h cur visited r,
  height_loop functions fuel h cur visited = Some r ->
  fuel <= fuel' ->
  height_loop functions fuel' h cur visited = Some r.
Proof.
  induction fuel as [|fuel IH]; intros fuel' h cur visited r H Hle.
  - discriminate.
  - destruct fuel' as [|fuel']; [lia|]. simpl in *.
    destruct (find_caller functions cur) as [caller|]; [|exact H].
    destruct (in_set _ visited); [exact H|].
    apply (IH fuel'); [exact H | lia].
Qed.

Lemma height_loop_total (names : list text) :
  (forall c, In c (map snd functions) -> In (N c) names) ->
  forall fuel h cur visited,
    walk_inv functions names cur visited ->
    length names - length visited < fuel ->
    exists r, height_loop functions fuel h cur visited = Some r
              /\ r + length visited <= h + length names.
Proof.
  intros Hnames. induction fuel as [|fuel IH];
    intros h cur visited (Hnd & Hincl & Hcur & Hlast) Hfuel; [lia|].
  assert (Hlen : length visited <= length names)
    by (apply NoDup_incl_length; assumption).
  simpl. destruct (find_caller functions cur) as [caller|] eqn:Ec.
  2:{ exists h. split; [reflexivity | lia]. }
  destruct (in_set (get_function_name caller) visited) eqn:Ev.
  { exists h. split; [reflexivity | lia]. }
  assert (Hnv : ~ In (N caller) visited).
  { intros Hin. apply in_set_iff in Hin. unfold N in Hin. congruence. }
  assert (Hfresh : ~ In (N cur) visited).
  { destruct visited as [|pn earlier]; [intros []|].
    destruct Hlast as [Hprev Hearlier]. intros [E|Hin]; [|tauto].
    assert (Ecur : F cur = Some cur) by (apply Hprev; auto).
    unfold F in Ecur. rewrite Ec in Ecur. injection Ecur as ->.
    apply Hnv. left. exact E. }
  assert (Hinv : walk_inv functions names caller (N cur :: visited)).
  { unfold walk_inv. split; [constructor; assumption|].
    split; [intros x [<-|Hx]; auto|].
    split; [apply Hnames; apply (find_caller_in cur); exact Ec|].
    split; [|exact Hnv].
    intros t Et. rewrite <- Ec. apply find_caller_by_name. exact Et. }
  assert (Hlen' : length (N cur :: visited) <= length names).
  { destruct Hinv as (Hnd' & Hincl' & _). apply NoDup_incl_length; auto. }
  simpl in Hlen'.
  destruct (IH (h + 1) caller (N cur :: visited) Hinv) as (r & Er & Hr).
  { simpl. lia. }
  exists r. split; [exact Er|]. simpl in Hr. lia.
Qed.

(** The walk of [_calculate_caller_height] always reaches its [break]
    within the fuel the model gives it. *)
Lemma calculate_caller_height_runs t :
  height_loop functions (height_fuel functions) 0 t []
  = Some (calculate_caller_height functions t)
  /\ calculate_caller_height functions t <= length functions + 1.
Proof.
  assert (Hnames : forall c, In c (map snd functions) ->
                     In (N c) (N t :: map N (map snd functions))).
  { intros c Hc. right. apply in_map. exact Hc. }
  assert (Hinv : walk_inv functions (N t :: map N (map snd functions)) t []).
  { unfold walk_inv. split; [constructor|]. split; [intros x []|].
    split; [left; reflexivity | exact I]. }
  assert (Hfuel : length (N t :: map N (map snd functions))
                  - length (@nil text) < height_fuel functions).
  { unfold height_fuel. simpl. rewrite !length_map. lia. }
  destruct (height_loop_total Hnames 0 Hinv Hfuel) as (r & Er & Hr).
  unfold calculate_caller_height. rewrite Er. split; [reflexivity|].
  simpl in Hr. rewrite !length_map in Hr. lia.
Qed.
End HeightWalk.

(** C2: for every function mapping and every function in it the upward walk
    terminates, cycles and self-loops included: some height [h], at most the
    number of functions, is returned by the loop whatever fuel above that
    number it is given, and it is the value [_calculate_caller_height]
    returns. *)
Theorem caller_height_terminates (functions : list (text * text))
    (function_text : text) :
  In function_text (map snd functions) ->
  exists h,
    h <= length functions
    /\ (forall fuel, length functions < fuel ->
          height_loop functions fuel 0 function_text [] = Some h)
    /\ calculate_caller_height functions function_text = h.
Proof.
  intros Hin.
  set (names := map get_function_name (map snd functions)).
  assert (Hnames : forall c, In c (map snd functions) ->
                     In (get_function_name c) names).
  { intros c Hc. apply in_map. exact Hc. }
  assert (Hinv : walk_inv functions names function_text []).
  { unfold walk_inv. split; [constructor|]. split; [intros x []|].
    split; [apply in_map; exact Hin | exact I]. }
  assert (Hfuel : length names - length (@nil text) < S (length functions)).
  { unfold names. simpl. rewrite !length_map. lia. }
  destruct (height_loop_total Hnames 0 Hinv Hfuel) as (r & Er & Hr).
  unfold names in Hr. simpl in Hr. rewrite !length_map in Hr.
  exists r. split; [lia|]. split.
  - intros fuel Hf.
    apply (@height_loop_more_fuel functions _ fuel _ _ _ _ Er). lia.
  - destruct (calculate_caller_height_runs functions function_text)
      as [E _].
    assert (E' := @height_loop_more_fuel functions _ (height_fuel functions)
                    _ _ _ _ Er).
    rewrite E' in E; [|unfold height_fuel; lia]. congruence.
Qed.

Lemma caller_height_terminates_witness :
  exists h,
    h <= 2
    /\ (forall fuel, 2 < fuel ->
          height_loop functions_AB fuel 0 text_B [] = Some h)
    /\ calculate_caller_height functions_AB text_B = h.
Proof.
  apply (caller_height_terminates functions_AB text_B).
  vm_compute. right. left. reflexivity.
Defined.

Lemma scan_nil_inv r : forall s off pv,
  scan r off pv s 0 = [] ->
  forall a b, s = a ++ b -> match_at r (prev_after pv a) b = None.
Proof.
  induction s as [|x s IH]; intros off pv H a b E.
  - symmetry in E. apply app_eq_nil in E. destruct E as [-> ->].
    simpl in *. destruct (match_at r pv []); [discriminate|reflexivity].
  - cbn [scan] in H. destruct (match_at r pv (x :: s)) eqn:Em;
      [discriminate|].
    destruct a as [|y a].
    + simpl in E. subst b. exact Em.
    + simpl in E. injection E as <- E. simpl. eapply IH; eauto.
Qed.

Lemma search_finds r t a b c :
  t = a ++ b -> In c (run r (Cur (prev_after None a) b None)) ->
  search r t <> None.
Proof.
  intros E Hin Hs. unfold search, finditer in Hs.
  destruct (scan r 0 None t 0) eqn:Es; [|discriminate].
  assert (Hm := @scan_nil_inv r t 0 None Es a b E). unfold match_at in Hm.
  destruct (run r (Cur (prev_after None a) b None)); [destruct Hin|].
  discriminate.
Qed.

(** A name matches the pattern it is spliced in as. *)
Lemma name_as_pattern_matches n : forall pv b g,
  In (Cur (prev_after pv n) b g) (run (name_as_pattern n) (Cur pv (n ++ b) g)).
Proof.
  induction n as [|x n IH]; intros pv b g.
  - simpl. left. reflexivity.
  - cbn [name_as_pattern]. apply in_run_seq.
    exists (Cur (Some x) (n ++ b) g). split.
    + destruct (Ascii.eqb x ".") eqn:E.
      * apply in_run_cls. exists x. simpl. repeat split.
        apply ascii_eqb_true in E. subst x. reflexivity.
      * apply in_run_lit. simpl. auto.
    + apply IH.
Qed.

Lemma calls_name_found t n : calls_name t n -> search (caller_pattern n) t <> None.
Proof.
  intros (a & m & b & E & Hm).
  apply (@search_finds _ t a (txt "call" ++ m ++ "@"%char :: n ++ b)
           (Cur (prev_after (Some "@"%char) n) b None)); [exact E|].
  unfold caller_pattern. apply in_run_seq.
  exists (Cur (prev_after (prev_after None a) (txt "call"))
              (m ++ "@"%char :: n ++ b) None). split.
  - apply in_run_str. simpl. auto.
  - apply in_run_seq.
    exists (Cur (prev_after (prev_after (prev_after None a) (txt "call")) m)
                ("@"%char :: n ++ b) None). split.
    + apply in_run_star. exists m. simpl. auto.
    + apply in_run_seq. exists (Cur (Some "@"%char) (n ++ b) None). split.
      * apply in_run_lit. simpl. auto.
      * apply name_as_pattern_matches.
Qed.

Lemma height_loop_step fs fuel h cur visited :
  height_loop fs (S fuel) h cur visited =
  match find_caller fs cur with
  | None => Some h
  | Some caller =>
      if in_set (get_function_name caller) visited then Some h
      else height_loop fs fuel (h + 1) caller
             (get_function_name cur :: visited)
  end.
Proof. reflexivity. Qed.

(** C9: in a module whose only function calls itself, the caller height of
    that function is 1: the self-call makes it its own first caller, one hop
    is counted, then its name is in the visited set and the walk stops. *)
Theorem self_recursive_height_is_one (function_text : text) :
  calls_name function_text (get_function_name function_text) ->
  calculate_caller_height
    [(get_function_name function_text, function_text)] function_text = 1.
Proof.
  intros H. apply calls_name_found in H.
  set (fs := [(get_function_name function_text, function_text)]).
  assert (Hf : find_caller fs function_text = Some function_text).
  { unfold find_caller, fs. cbn [map snd List.find].
    destruct (search _ function_text); [reflexivity | contradiction]. }
  assert (Hin : in_set (get_function_name function_text)
                  [get_function_name function_text] = true).
  { apply in_set_iff. left. reflexivity. }
  unfold calculate_caller_height.
  change (height_fuel fs) with 3.
  rewrite height_loop_step, Hf.
  change (in_set (get_function_name function_text) []) with false.
  cbv iota. rewrite height_loop_step, Hf, Hin. reflexivity.
Qed.

Lemma self_recursive_height_is_one_witness :
  calculate_caller_height [(get_function_name text_B, text_B)] text_B = 1.
Proof.
  apply self_recursive_height_is_one.
  exists (txt "define void @B() {
entry:
  "), (txt " void "), (txt "()
  ret void
}").
  split; reflexivity.
Defined.

(** * Loop-body extraction *)

Lemma skipn_cons_nth {A} (d : A) : forall (l : list A) i x s,
  skipn i l = x :: s -> nth i l d = x /\ skipn (S i) l = s /\ i < length l.
Proof.
  induction l as [|y l IH]; intros i x s H.
  - rewrite skipn_nil in H. discriminate.
  - destruct i as [|i].
    + simpl in H. injection H as -> ->. simpl. repeat split. lia.
    + simpl in H. apply IH in H. destruct H as (H1 & H2 & H3).
      simpl. repeat split; auto. lia.
Qed.

Lemma skipn_nil_length {A} : forall (l : list A) i,
  skipn i l = [] -> length l <= i.
Proof.
  induction l as [|y l IH]; intros i H; simpl; [lia|].
  destruct i as [|i]; [discriminate|]. simpl in H. apply IH in H. lia.
Qed.

Lemma scan_len_zero s : scan_len 0 s = 0.
Proof. destruct s; reflexivity. Qed.

Lemma final_count_zero s : final_count 0 s = 0.
Proof. destruct s; reflexivity. Qed.

(** The [while] loop of the source computes the scan of the specification:
    it scans [scan_len] characters past the start index and never runs out
    of fuel when given the length of the text. *)
Lemma brace_loop_scan : forall s fuel t c e,
  skipn (S e) t = s -> length s <= fuel ->
  brace_loop fuel t c e = Some (final_count c s, e + scan_len c s).
Proof.
  induction s as [|x s IH]; intros fuel t c e Hs Hfuel.
  - apply skipn_nil_length in Hs.
    assert (Hc : (e <? length t - 1) = false) by (apply Nat.ltb_ge; lia).
    destruct fuel; simpl; rewrite Hc, andb_false_r;
      destruct c; simpl; rewrite ?Nat.add_0_r; reflexivity.
  - destruct c as [|c].
    + destruct fuel; simpl; rewrite Nat.add_0_r; reflexivity.
    + destruct (skipn_cons_nth zero _ _ Hs) as (Hn & Hs' & Hlt).
      assert (Hc : (e <? length t - 1) = true) by (apply Nat.ltb_lt; lia).
      destruct fuel as [|fuel]; [simpl in Hfuel; lia|].
      cbn [brace_loop]. rewrite Hc. cbn [Nat.ltb Nat.leb andb].
      replace (e + 1) with (S e) by lia. rewrite Hn.
      assert (E : forall k, brace_loop fuel t k (S e)
                            = Some (final_count k s, S e + scan_len k s)).
      { intros k. apply IH; [exact Hs' | simpl in Hfuel; lia]. }
      cbn [final_count scan_len]. unfold bump.
      replace (e + S (scan_len _ s))
        with (S e + scan_len
                (if Ascii.eqb x "{" then S c + 1
                 else if Ascii.eqb x "}" then S c - 1 else S c) s) by lia.
      destruct (Ascii.eqb x "{"); [apply E|].
      destruct (Ascii.eqb x "}"); apply E.
Qed.

Lemma get_loop_body_scan header t :
  get_loop_body header t =
  match find header t with
  | None => []
  | Some i => firstn (S (scan_len 1 (skipn (S i) t))) (skipn i t)
  end.
Proof.
  unfold get_loop_body. destruct (find header t) as [i|]; [|reflexivity].
  rewrite (@brace_loop_scan (skipn (S i) t) (length t) t 1 i eq_refl).
  - unfold slice. f_equal. lia.
  - rewrite length_skipn. lia.
Qed.

Lemma count_char_app a u v :
  count_char a (u ++ v) = count_char a u + count_char a v.
Proof. unfold count_char. rewrite filter_app, length_app. reflexivity. Qed.

Lemma count_char_cons a x t :
  count_char a (x :: t) = count_char a [x] + count_char a t.
Proof. apply (count_char_app a [x] t). Qed.

(** How one character moves the counter and the two brace counts. *)
Lemma brace_case x c :
  (bump c x = c + 1 /\ opens [x] = 1 /\ closes [x] = 0)
  \/ (bump c x = c - 1 /\ opens [x] = 0 /\ closes [x] = 1)
  \/ (bump c x = c /\ opens [x] = 0 /\ closes [x] = 0).
Proof.
  unfold bump, opens, closes, count_char.
  destruct (ascii_dec x "{") as [->|H1]; [left; auto|].
  destruct (ascii_dec x "}") as [->|H2]; [right; left; auto|].
  right. right. cbn [filter].
  assert (E1 : Ascii.eqb x "{" = false) by (apply Ascii.eqb_neq; exact H1).
  assert (E2 : Ascii.eqb x "}" = false) by (apply Ascii.eqb_neq; exact H2).
  assert (E3 : Ascii.eqb "{" x = false) by (apply Ascii.eqb_neq; congruence).
  assert (E4 : Ascii.eqb "}" x = false) by (apply Ascii.eqb_neq; congruence).
  rewrite E1, E2, E3, E4. auto.
Qed.

(** The counter at the stop accounts for every brace scanned. *)
Lemma scan_balance : forall s c,
  final_count c s + closes (firstn (scan_len c s) s)
  = c + opens (firstn (scan_len c s) s).
Proof.
  induction s as [|x s IH]; intros c.
  - destruct c; reflexivity.
  - destruct c as [|c]; [reflexivity|].
    cbn [final_count scan_len firstn].
    unfold opens, closes in *.
    rewrite (count_char_cons "}"), (count_char_cons "{").
    specialize (IH (bump (S c) x)).
    destruct (brace_case x (S c)) as [(B & O & C)|[(B & O & C)|(B & O & C)]];
      unfold opens, closes in O, C; rewrite O, C; lia.
Qed.

(** The scan stops before the end of the text only with the counter at 0. *)
Lemma scan_stops : forall s c,
  final_count c s = 0 \/ scan_len c s = length s.
Proof.
  induction s as [|x s IH]; intros c.
  - right. destruct c; reflexivity.
  - destruct c as [|c]; [left; reflexivity|].
    cbn [final_count scan_len length].
    destruct (IH (bump (S c) x)) as [H|H]; [left; exact H|right; lia].
Qed.

(** With never a closing brace too many, the scan runs to the end. *)
Lemma scan_to_end : forall s c,
  (forall k, closes (firstn k s) < c + opens (firstn k s)) ->
  scan_len c s = length s.
Proof.
  induction s as [|x s IH]; intros c H.
  - destruct c; reflexivity.
  - assert (H0 : 0 < c).
    { specialize (H 0). cbn [firstn] in H.
      unfold closes, opens, count_char in H. cbn [filter length] in H. lia. }
    destruct c as [|c]; [lia|]. cbn [scan_len length]. f_equal.
    apply IH. intros k. specialize (H (S k)). cbn [firstn] in H.
    unfold opens, closes in *.
    rewrite (count_char_cons "}"), (count_char_cons "{") in H.
    assert (H1 := H). 
    destruct (brace_case x (S c)) as [(B & O & C)|[(B & O & C)|(B & O & C)]];
      unfold opens, closes in O, C; rewrite O, C in H1; lia.
Qed.

Lemma starts_with_iff sub : forall t,
  starts_with sub t = true <-> exists b, t = sub ++ b.
Proof.
  induction sub as [|a sub IH]; intros t.
  - simpl. split; eauto.
  - destruct t as [|x t]; simpl.
    + split; [discriminate | intros (b & H); discriminate].
    + rewrite andb_true_iff, IH, ascii_eqb_true. split.
      * intros (-> & b & ->). eauto.
      * intros (b & H). injection H as -> ->. eauto.
Qed.

Lemma find_some_inv sub : forall t i,
  find sub t = Some i ->
  exists a b, t = a ++ sub ++ b /\ length a = i.
Proof.
  induction t as [|x t IH]; intros i H.
  - simpl in H. destruct (starts_with sub []) eqn:E; [|discriminate].
    injection H as <-. apply starts_with_iff in E. destruct E as (b & E).
    exists [], b. auto.
  - simpl in H. destruct (starts_with sub (x :: t)) eqn:E.
    + injection H as <-. apply starts_with_iff in E. destruct E as (b & E).
      exists [], b. auto.
    + destruct (find sub t) as [j|] eqn:F; [|discriminate].
      injection H as <-. destruct (IH j eq_refl) as (a & b & -> & <-).
      exists (x :: a), b. auto.
Qed.

Lemma find_exists sub : forall a b,
  exists i, find sub (a ++ sub ++ b) = Some i.
Proof.
  induction a as [|x a IH]; intros b.
  - exists 0. simpl app.
    assert (E : starts_with sub (sub ++ b) = true)
      by (apply starts_with_iff; eauto).
    destruct (sub ++ b); simpl in *; rewrite E; reflexivity.
  - destruct (IH b) as (i & Hi). simpl app. cbn [find].
    destruct (starts_with sub (x :: a ++ sub ++ b)); [eauto|].
    rewrite Hi. simpl. eauto.
Qed.

Lemma loop_header_shape t header :
  In header (findall loop_header_pattern t) ->
  (exists u, header = txt "loop:" ++ u ++ [nl] /\ forallb not_nl u = true)
  /\ exists a b, t = a ++ header ++ b.
Proof.
  unfold findall. intros H. apply in_map_iff in H.
  destruct H as (m & <- & H). apply finditer_in in H.
  destruct H as (a & w & b & c & Et & _ & Ew & _ & Er & Hm).
  apply match_at_in in Hm. unfold loop_header_pattern in Hm.
  apply in_run_seq in Hm. destruct Hm as (c1 & H1 & Hm).
  apply in_run_seq in Hm. destruct Hm as (c2 & H2 & H3).
  apply in_run_str in H1. destruct H1 as (E1 & _).
  apply in_run_star in H2. destruct H2 as (u & E2 & Pu & _).
  apply in_run_lit in H3. destruct H3 as (E3 & _).
  cbn [rest] in E1. rewrite E2, E3, Er in E1.
  assert (E : w ++ b = (txt "loop:" ++ u ++ [nl]) ++ b).
  { rewrite E1. rewrite <- !app_assoc. reflexivity. }
  apply app_inv_tail in E. rewrite Ew. split.
  - exists u. auto.
  - exists a, b. exact Et.
Qed.

(** C4 (as amended): for every loop anchor of a function text, the body
    starts at the first occurrence of the anchor line and runs over the
    characters the counter scan covers (counter 1 at the start, up on an
    opening brace, down on a closing one, stop at 0 or at the end of the
    text).  When the counter reaches 0 the body ends there and holds exactly
    one closing brace more than opening ones; when no prefix of the text
    after the anchor has more closing than opening braces, the body is the
    whole rest of the text from the anchor on.  The extraction is total. *)
Theorem loop_body_extraction (function_text header : text) :
  In header (findall loop_header_pattern function_text) ->
  exists i after,
    find header function_text = Some i
    /\ skipn i function_text = "l"%char :: after
    /\ get_loop_body header function_text
       = "l"%char :: firstn (scan_len 1 after) after
    /\ (final_count 1 after = 0 \/ scan_len 1 after = length after)
    /\ (final_count 1 after = 0 ->
        closes (get_loop_body header function_text)
        = opens (get_loop_body header function_text) + 1)
    /\ ((forall k, closes (firstn k after) <= opens (firstn k after)) ->
        get_loop_body header function_text = skipn i function_text).
Proof.
  intros H. apply loop_header_shape in H.
  destruct H as ((u & Eh & _) & a & b & Et).
  destruct (find_exists header a b) as (i & Hi). rewrite <- Et in Hi.
  destruct (find_some_inv _ _ Hi) as (a' & b' & Et' & Ei).
  set (after := txt "oop:" ++ u ++ [nl] ++ b').
  assert (Es : skipn i function_text = "l"%char :: after).
  { rewrite Et', <- Ei, skipn_app, Nat.sub_diag, skipn_all. simpl.
    rewrite Eh. unfold after. simpl. rewrite <- !app_assoc. reflexivity. }
  destruct (skipn_cons_nth zero _ _ Es) as (_ & Es' & _).
  assert (Eb : get_loop_body header function_text
               = "l"%char :: firstn (scan_len 1 after) after).
  { rewrite get_loop_body_scan, Hi, Es', Es. reflexivity. }
  exists i, after. split; [exact Hi|]. split; [exact Es|].
  split; [exact Eb|]. split; [apply scan_stops|]. split.
  - intros Hf. rewrite Eb. assert (Hb := scan_balance after 1).
    rewrite Hf in Hb. unfold closes, opens in *.
    rewrite (count_char_cons "}"), (count_char_cons "{").
    change (count_char "}" ["l"%char]) with 0.
    change (count_char "{" ["l"%char]) with 0. lia.
  - intros Hp. rewrite Eb, Es. f_equal. rewrite scan_to_end.
    + apply firstn_all.
    + intros k. specialize (Hp k). lia.
Qed.

Lemma loop_body_extraction_witness :
  exists i after,
    find header_loop text_loop = Some i
    /\ skipn i text_loop = "l"%char :: after
    /\ get_loop_body header_loop text_loop
       = "l"%char :: firstn (scan_len 1 after) after
    /\ (final_count 1 after = 0 \/ scan_len 1 after = length after)
    /\ (final_count 1 after = 0 ->
        closes (get_loop_body header_loop text_loop)
        = opens (get_loop_body header_loop text_loop) + 1)
    /\ ((forall k, closes (firstn k after) <= opens (firstn k after)) ->
        get_loop_body header_loop text_loop = skipn i text_loop).
Proof.
  apply loop_body_extraction. vm_compute. left. reflexivity.
Defined.

(** C4 (as stated) fails: the braces of [text_loop] are perfectly balanced,
    yet the body extracted for its loop anchor has a closing brace and no
    opening one. *)
Lemma balanced_text_unbalanced_body :
  In header_loop (findall loop_header_pattern text_loop)
  /\ balanced text_loop = true
  /\ opens (get_loop_body header_loop text_loop)
     <> closes (get_loop_body header_loop text_loop).
Proof.
  split; [vm_compute; left; reflexivity|].
  split; [vm_compute; reflexivity|].
  vm_compute. discriminate.
Qed.

(** * Function names *)

Lemma match_at_none r pv s :
  (forall c, ~ In c (run r (Cur pv s None))) -> match_at r pv s = None.
Proof.
  unfold match_at. intros H. destruct (run r (Cur pv s None)) as [|c l];
    [reflexivity|]. exfalso. apply (H c). left. reflexivity.
Qed.

(** The longest run comes first. *)
Lemma star_run_head p : forall u pv post g,
  forallb p u = true ->
  match post with [] => True | x :: _ => p x = false end ->
  exists l, star_run p pv (u ++ post) g
            = Cur (prev_after pv u) post g :: l.
Proof.
  induction u as [|x u IH]; intros pv post g Hu Hp.
  - simpl. destruct post as [|y post]; simpl; [eauto|]. rewrite Hp. eauto.
  - simpl in Hu. apply andb_true_iff in Hu. destruct Hu as [Hx Hu].
    simpl. rewrite Hx. destruct (IH (Some x) post g Hu Hp) as (l & ->).
    simpl. eauto.
Qed.

(** A match of [name_pattern] starts at an [@] followed by a name
    character. *)
Lemma name_pattern_start pv s c :
  In c (run name_pattern (Cur pv s None)) ->
  exists x b, s = "@"%char :: x :: b /\ is_name_char x = true.
Proof.
  unfold name_pattern. intros H.
  apply in_run_seq in H. destruct H as (c1 & H1 & H2).
  apply in_run_lit in H1. destruct H1 as (E1 & _). cbn [rest] in E1.
  cbn [run] in H2. apply in_map_iff in H2. destruct H2 as (c2 & _ & H2).
  apply in_run_plus in H2. destruct H2 as (x & u & E2 & P & _).
  simpl in P. apply andb_true_iff in P. destruct P as [Px _].
  exists x, (u ++ rest c2). rewrite E1, E2. auto.
Qed.

Lemma name_pattern_here pv name post :
  name <> [] -> forallb is_name_char name = true ->
  match post with [] => True | x :: _ => is_name_char x = false end ->
  exists c, match_at name_pattern pv ("@"%char :: name ++ post) = Some c
            /\ rest c = post /\ grp c = Some name.
Proof.
  intros Hne Hn Hp. destruct name as [|x nm]; [contradiction|].
  simpl in Hn. apply andb_true_iff in Hn. destruct Hn as [Hx Hn].
  destruct (star_run_head is_name_char nm (Some x) post None Hn Hp)
    as (l & El).
  unfold match_at, name_pattern. cbn [run rest grp prev Plus flat_map app].
  rewrite Ascii.eqb_refl. cbn [flat_map run rest grp prev app map].
  rewrite Hx. cbn [flat_map run rest grp prev app map].
  rewrite El. cbn [app map hd_error rest prev].
  eexists. split; [reflexivity|]. cbn [rest grp]. split; [reflexivity|].
  f_equal. apply (firstn_app_exact (x :: nm) post).
Qed.

Lemma get_function_name_first_token t pre name post :
  first_token t pre name post -> get_function_name t = name.
Proof.
  intros (Et & Hne & Hn & Hp & Hpre).
  destruct (@name_pattern_here (prev_after None pre) name post Hne Hn Hp)
    as (c & Em & Er & Eg).
  unfold get_function_name. rewrite Et.
  rewrite (@search_leftmost name_pattern pre _ c); [| |exact Em].
  - unfold group1. cbn [mk_match m_grp]. rewrite Eg. reflexivity.
  - intros a1 a2 Ea Hne2. apply match_at_none. intros c0 Hc0.
    apply name_pattern_start in Hc0. destruct Hc0 as (x & b & E & Hx).
    destruct a2 as [|y a2]; [contradiction|].
    simpl in E. injection E as -> E. destruct a2 as [|z a2].
    + simpl in E. injection E as <- _. discriminate.
    + simpl in E. injection E as -> _. apply Hpre.
      exists a1, x, a2. auto.
Qed.

Lemma get_function_name_unknown t :
  ~ token_start t -> get_function_name t = txt "unknown".
Proof.
  intros H. unfold get_function_name. rewrite search_none; [reflexivity|].
  intros a b E. apply match_at_none. intros c Hc.
  apply name_pattern_start in Hc. destruct Hc as (x & b' & -> & Hx).
  apply H. exists a, x, b'. auto.
Qed.

Lemma has_token_iff t : has_token t = true <-> token_start t.
Proof.
  split.
  - induction t as [|c t IH]; [discriminate|]. cbn [has_token].
    intros H. apply orb_true_iff in H. destruct H as [H|H].
    + apply andb_true_iff in H. destruct H as [Hc Hx].
      apply ascii_eqb_true in Hc. subst c. destruct t as [|x t];
        [discriminate|]. exists [], x, t. auto.
    + destruct (IH H) as (a & x & b & -> & Hx). exists (c :: a), x, b. auto.
  - intros (a & x & b & -> & Hx). induction a as [|y a IH].
    + simpl. rewrite Hx. reflexivity.
    + simpl app. cbn [has_token]. rewrite IH. apply orb_true_r.
Qed.

Lemma span_split (p : ascii -> bool) : forall s,
  exists u v, s = u ++ v /\ forallb p u = true
              /\ match v with [] => True | y :: _ => p y = false end.
Proof.
  induction s as [|x s (u & v & E & Hu & Hv)].
  - exists [], []. auto.
  - destruct (p x) eqn:Px.
    + exists (x :: u), v. simpl. rewrite Px, Hu, E. auto.
    + exists [], (x :: s). auto.
Qed.

Lemma first_token_exists : forall t,
  token_start t -> exists pre name post, first_token t pre name post.
Proof.
  induction t as [|c t IH]; intros H.
  - destruct H as (a & x & b & E & _). destruct a; discriminate.
  - destruct (Ascii.eqb c "@"
              && match t with x :: _ => is_name_char x | [] => false end)
      eqn:Hd.
    + apply andb_true_iff in Hd. destruct Hd as [Hc Hx].
      apply ascii_eqb_true in Hc. subst c. destruct t as [|x t];
        [discriminate|].
      destruct (span_split is_name_char t) as (u & v & E & Hu & Hv).
      exists [], (x :: u), v. unfold first_token. simpl. rewrite Hx, Hu, E.
      repeat split; auto; try discriminate.
      intros (a & y & b & Ea & _). destruct a; discriminate.
    + apply has_token_iff in H. cbn [has_token] in H. rewrite Hd in H.
      simpl in H. apply has_token_iff in H.
      destruct (IH H) as (pre & name & post & Et & Hne & Hn & Hp & Hpre).
      exists (c :: pre), name, post. unfold first_token. simpl. rewrite Et.
      repeat split; auto.
      intros (a & y & b & Ea & Hy). destruct a as [|z a].
      * simpl in Ea. injection Ea as -> Ea. rewrite Et, Ea in Hd.
        simpl in Hd. rewrite Hy in Hd. discriminate.
      * simpl in Ea. injection Ea as _ Ea. apply Hpre. exists a, y, b. auto.
Qed.

Lemma first_line_split : forall t,
  exists r, t = first_line t ++ r
            /\ match r with [] => True | x :: _ => x = nl end.
Proof.
  induction t as [|c t (r & E & Hr)].
  - exists []. auto.
  - simpl. destruct (Ascii.eqb c nl) eqn:Ec.
    + apply ascii_eqb_true in Ec. exists (c :: t). auto.
    + exists r. simpl. rewrite <- E. auto.
Qed.

Lemma first_token_of_first_line t pre name post :
  first_token (first_line t) pre name post ->
  exists post', first_token t pre name post'.
Proof.
  intros (Et & Hne & Hn & Hp & Hpre).
  destruct (first_line_split t) as (r & E & Hr).
  exists (post ++ r). unfold first_token. repeat split; auto.
  - rewrite E at 1. rewrite Et. rewrite <- app_assoc. simpl.
    rewrite <- app_assoc. reflexivity.
  - destruct post as [|y post]; [|exact Hp]. simpl.
    destruct r as [|x r]; [exact I|]. subst x. reflexivity.
Qed.

(** C7 (as amended): the extracted name is the first symbol-reference token
    of the region text, wherever it stands; when the header line holds such
    a token, it is the header's first one; a region text without any such
    token gets the sentinel [unknown], and the extraction never fails.  The
    sentinel is not reserved: [unknown] is returned exactly when the region
    holds no token or its first token is [@unknown]. *)
Theorem function_name_first_token (function_text : text) :
  (token_start function_text ->
   exists pre name post,
     first_token function_text pre name post
     /\ get_function_name function_text = name)
  /\ (~ token_start function_text ->
      get_function_name function_text = txt "unknown")
  /\ (token_start (first_line function_text) ->
      exists pre name post,
        first_token (first_line function_text) pre name post
        /\ get_function_name function_text = name)
  /\ (get_function_name function_text = txt "unknown" <->
      ~ token_start function_text
      \/ exists pre post,
           first_token function_text pre (txt "unknown") post).
Proof.
  split; [|split; [|split]].
  - intros H. destruct (first_token_exists H) as (pre & name & post & Hf).
    exists pre, name, post. split; [exact Hf|].
    eapply get_function_name_first_token; eauto.
  - apply get_function_name_unknown.
  - intros H. destruct (first_token_exists H) as (pre & name & post & Hf).
    exists pre, name, post. split; [exact Hf|].
    destruct (first_token_of_first_line _ Hf) as (post' & Hf').
    eapply get_function_name_first_token; eauto.
  - split.
    + intros E. destruct (has_token function_text) eqn:Ht.
      * right. apply has_token_iff, first_token_exists in Ht.
        destruct Ht as (pre & name & post & Hf). exists pre, post.
        rewrite (get_function_name_first_token Hf) in E. subst name.
        exact Hf.
      * left. intros H. apply has_token_iff in H. congruence.
    + intros [H|(pre & post & Hf)].
      * apply get_function_name_unknown. exact H.
      * exact (get_function_name_first_token Hf).
Qed.

Lemma function_name_first_token_witness :
  exists pre name post,
    first_token (first_line text_B) pre name post
    /\ get_function_name text_B = name.
Proof.
  apply (proj1 (proj2 (proj2 (function_name_first_token text_B)))).
  apply has_token_iff. vm_compute. reflexivity.
Defined.

(** C7 (as stated) fails: the header line of [text_headerless] holds no
    symbol-reference token, yet the name extracted is [g], found in the
    body, not the sentinel. *)
Lemma headerless_region_named_from_body :
  ~ token_start (first_line text_headerless)
  /\ get_function_name text_headerless = txt "g"
  /\ get_function_name text_headerless <> txt "unknown".
Proof.
  split; [|split].
  - intros H. apply has_token_iff in H. vm_compute in H. discriminate.
  - vm_compute. reflexivity.
  - vm_compute. discriminate.
Qed.

(** * Missing metadata *)

Lemma substring_refl t : substring t t.
Proof. exists [], []. simpl. rewrite app_nil_r. reflexivity. Qed.

Lemma substring_trans s t u : substring s t -> substring t u -> substring s u.
Proof.
  intros (a & b & ->) (a' & b' & ->). exists (a' ++ a), (b ++ b').
  rewrite <- !app_assoc. reflexivity.
Qed.

Lemma finditer_substring r t m : In m (finditer r t) -> substring (m_text m) t.
Proof.
  intros H. apply finditer_in in H.
  destruct H as (a & u & b & c & Et & _ & Eu & _). exists a, b. congruence.
Qed.

Lemma search_in r t m : search r t = Some m -> In m (finditer r t).
Proof. apply hd_error_in. Qed.

Lemma lstrip_suffix : forall t, exists a, t = a ++ lstrip t.
Proof.
  induction t as [|c t (a & E)].
  - exists []. reflexivity.
  - simpl. destruct (is_space c).
    + exists (c :: a). simpl. rewrite <- E. reflexivity.
    + exists []. reflexivity.
Qed.

Lemma strip_substring t : substring (strip t) t.
Proof.
  unfold strip, rstrip.
  destruct (lstrip_suffix t) as (a & Ea).
  destruct (lstrip_suffix (rev (lstrip t))) as (b & Eb).
  exists a, (rev b). rewrite <- rev_app_distr, <- Eb, rev_involutive.
  exact Ea.
Qed.

Lemma span_substring p0 segs p :
  In p (map snd segs) -> substring p (interleave p0 segs).
Proof.
  unfold interleave. revert p0.
  induction segs as [|[sep q] segs IH]; intros p0 H; [destruct H|].
  simpl in H. destruct H as [<-|H].
  - exists (p0 ++ sep), (concat (map (fun sp => fst sp ++ snd sp) segs)).
    simpl. rewrite <- !app_assoc. reflexivity.
  - destruct (IH [] H) as (a & b & E). simpl in E.
    exists (p0 ++ sep ++ q ++ a), b. simpl. rewrite E.
    rewrite <- !app_assoc. reflexivity.
Qed.

Lemma basic_block_substring t b : In b (get_basic_blocks t) -> substring b t.
Proof.
  intros H. destruct (basic_blocks_segmented_spans t)
    as (header & segs & Et & Eb).
  rewrite Eb in H. apply in_map_iff in H. destruct H as (p & <- & Hp).
  apply filter_In in Hp. destruct Hp as [Hp _].
  apply (substring_trans (strip_substring p)).
  assert (Hs := @span_substring header segs p Hp).
  rewrite <- Et in Hs. exact Hs.
Qed.

Lemma dict_set_in {K V : Type} (keq : K -> K -> bool) (k : K) (v : V)
    (d : list (K * V)) (k' : K) (v' : V) :
  In (k', v') (dict_set keq k v d) -> (k', v') = (k, v) \/ In (k', v') d.
Proof.
  induction d as [|[k0 v0] d IH]; simpl.
  - intros [H|[]]. left. congruence.
  - destruct (keq k0 k).
    + intros [H|H]; [left; congruence | right; right; exact H].
    + intros [H|H]; [right; left; exact H|].
      destruct (IH H); [left | right; right]; assumption.
Qed.

(** Every entry of the function mapping is a region [finditer] matched,
    under the name extracted from it. *)
Lemma split_into_functions_in ir n t :
  In (n, t) (split_into_functions ir) ->
  n = get_function_name t
  /\ exists m, In m (finditer function_pattern ir) /\ t = m_text m.
Proof.
  unfold split_into_functions.
  assert (G : forall ms d,
    In (n, t) (fold_left
      (fun d f => dict_set text_eqb (get_function_name (m_text f)) (m_text f) d)
      ms d) ->
    In (n, t) d \/ (n = get_function_name t
                    /\ exists m, In m ms /\ t = m_text m)).
  { induction ms as [|m ms IH]; intros d H; simpl in H; [left; exact H|].
    apply IH in H. destruct H as [H|(E & m' & Hm & Et)].
    - apply dict_set_in in H. destruct H as [H|H]; [|left; exact H].
      injection H as -> ->. right. split; [reflexivity|].
      exists m. split; [left|]; reflexivity.
    - right. split; [exact E|]. exists m'. split; [right|]; assumption. }
  intros H. apply G in H. destruct H as [[]|H]. exact H.
Qed.

(** C3 (as amended): [extract_all_features] returns, and every row holds
    exactly the twenty keys the method declares, in a fixed order;
    [function_name] maps to the name of the row's function, the key of its
    entry in the function mapping, which is the name extracted from the
    entry's text; each of the other nineteen keys maps to a number that is
    never negative.  No key is ever missing, and no memory-operation or
    branch count is among them. *)
Theorem rows_have_all_keys (ir : text) :
  exists rows,
    extract_all_features ir = Some rows
    /\ forall r, In r rows ->
         map fst r = feature_keys
         /\ (exists n t,
               In (n, t) (split_into_functions ir)
               /\ n = get_function_name t
               /\ lookup "function_name" r = Some (VStr n))
         /\ (forall k, In k numeric_feature_keys -> numeric_nonneg k r)
         /\ (forall k, In k memory_branch_keys -> lookup k r = None).
Proof.
  destruct (extract_all_features_returns ir) as (rows & E & F).
  exists rows. split; [exact E|]. intros r H.
  apply (in_extract_all_features ir r E) in H.
  destruct H as (n & t & Hin & Er).
  destruct (feature_row_shape (split_into_functions ir) n t)
    as (a1 & a2 & l1 & l2 & l3 & l4 & l5 & c1 & c2 & c3 & c4 & c5
        & _ & _ & _ & _ & Erow & HA & HL & HC).
  rewrite Erow in Er. injection Er as <-.
  split; [reflexivity|]. split; [|split].
  - exists n, t. split; [exact Hin|]. split; [|reflexivity].
    apply split_into_functions_in in Hin. tauto.
  - destruct HA as (A1 & A2). destruct HL as (L1 & L2 & L3 & L4 & L5).
    destruct HC as (C1 & C2 & C3 & C4 & C5).
    intros k Hk. unfold numeric_nonneg. simpl in Hk.
    repeat (destruct Hk as [<-|Hk];
            [eexists; split; [reflexivity|];
             first [assumption | apply nat_nonneg]|]).
    destruct Hk.
  - intros k Hk. simpl in Hk.
    repeat (destruct Hk as [<-|Hk]; [reflexivity|]). destruct Hk.
Qed.

Lemma rows_have_all_keys_witness :
  exists rows r,
    extract_all_features module_no_blocks = Some rows
    /\ In r rows
    /\ map fst r = feature_keys
    /\ lookup "function_name" r = Some (VStr (txt "f"))
    /\ (forall k, In k numeric_feature_keys -> numeric_nonneg k r)
    /\ (forall k, In k memory_branch_keys -> lookup k r = None).
Proof.
  destruct (rows_have_all_keys module_no_blocks) as (rows & E & H).
  assert (E' : exists r, extract_all_features module_no_blocks = Some [r]
                         /\ lookup "function_name" r = Some (VStr (txt "f"))).
  { vm_compute. eexists. split; reflexivity. }
  destruct E' as (r & E' & Hn).
  assert (rows = [r]) by congruence. subst rows.
  destruct (H r (or_introl eq_refl)) as (K & _ & N & M).
  exists [r], r. split; [exact E|]. split; [left; reflexivity|].
  split; [exact K|]. split; [exact Hn|]. split; [exact N | exact M].
Defined.

(** C3 (as stated) fails: the rows carry no memory-operation or branch
    count at all, and [function_name] is mapped to a string. *)
Lemma rows_lack_memory_counts :
  ~ (forall rows r,
       extract_all_features module_no_blocks = Some rows -> In r rows ->
       forall k, In k (feature_keys ++ memory_branch_keys) ->
                 numeric_nonneg k r).
Proof.
  intros H.
  assert (E : exists r, extract_all_features module_no_blocks = Some [r]
                        /\ lookup "load_count" r = None).
  { vm_compute. eexists. split; reflexivity. }
  destruct E as (r & E & Hl).
  destruct (H _ r E (or_introl eq_refl) "load_count"%string) as (q & Eq & _).
  - vm_compute. tauto.
  - rewrite Hl in Eq. discriminate.
Qed.

Lemma function_text_substring ir n t :
  In (n, t) (split_into_functions ir) -> substring t ir.
Proof.
  intros H. apply split_into_functions_in in H.
  destruct H as (_ & m & Hm & ->).
  apply (@finditer_substring function_pattern). exact Hm.
Qed.

Lemma prof_count_annotation_substring s t :
  substring s t -> prof_count_annotation s -> prof_count_annotation t.
Proof.
  intros (a & b & ->) (a' & d & m & e & b' & -> & Hd & Hm & He).
  exists (a ++ a'), d, m, e, (b' ++ b). repeat split; auto.
  rewrite <- !app_assoc. simpl. rewrite <- !app_assoc. reflexivity.
Qed.

Lemma digit_not_nl x : is_digit x = true -> not_nl x = true.
Proof.
  unfold not_nl. destruct (Ascii.eqb x nl) eqn:E; [|reflexivity].
  apply ascii_eqb_true in E. subst x. discriminate.
Qed.

Lemma forallb_digit_not_nl u :
  forallb is_digit u = true -> forallb not_nl u = true.
Proof.
  induction u as [|x u IH]; simpl; [reflexivity|]. intros H.
  apply andb_true_iff in H. destruct H as [Hx Hu].
  rewrite (digit_not_nl _ Hx). simpl. auto.
Qed.

(** A match of [prof_pattern] starts with [!prof !] and a digit and stays on
    one line. *)
Lemma prof_pattern_shape pv s c :
  In c (run prof_pattern (Cur pv s None)) ->
  exists d w, s = txt "!prof !" ++ d :: w ++ rest c
              /\ is_digit d = true /\ forallb not_nl w = true.
Proof.
  unfold prof_pattern. intros H.
  apply in_run_seq in H. destruct H as (c1 & H1 & H).
  apply in_run_seq in H. destruct H as (c2 & H2 & H).
  apply in_run_seq in H. destruct H as (c3 & H3 & H).
  apply in_run_seq in H. destruct H as (c4 & H4 & H5).
  apply in_run_str in H1. destruct H1 as (E1 & _). cbn [rest] in E1.
  apply in_run_plus in H2. destruct H2 as (d & ds & E2 & P2 & _).
  apply in_run_star in H3. destruct H3 as (mid & E3 & P3 & _).
  apply in_run_lit in H4. destruct H4 as (E4 & _).
  apply in_run_plus in H5. destruct H5 as (e & es & E5 & P5 & _).
  simpl in P2. apply andb_true_iff in P2. destruct P2 as [Pd Pds].
  exists d, (ds ++ mid ++ "!"%char :: e :: es). split; [|split; [exact Pd|]].
  - rewrite E1, E2, E3, E4, E5. rewrite <- !app_assoc. reflexivity.
  - rewrite !forallb_app. rewrite (forallb_digit_not_nl _ Pds), P3.
    change (forallb not_nl ("!"%char :: e :: es))
      with (forallb not_nl (e :: es)).
    apply forallb_digit_not_nl. exact P5.
Qed.

Lemma count_pattern_shape pv s c :
  In c (run count_pattern (Cur pv s None)) ->
  exists e b, s = txt "count:" ++ e :: b /\ is_digit e = true.
Proof.
  unfold count_pattern. intros H.
  apply in_run_seq in H. destruct H as (c1 & H1 & H2).
  apply in_run_str in H1. destruct H1 as (E1 & _). cbn [rest] in E1.
  cbn [run] in H2. apply in_map_iff in H2. destruct H2 as (c2 & _ & H2).
  apply in_run_plus in H2. destruct H2 as (e & es & E2 & P2 & _).
  simpl in P2. apply andb_true_iff in P2. destruct P2 as [Pe _].
  exists e, (es ++ rest c2). rewrite E1, E2. auto.
Qed.

Lemma block_prof_pattern_shape pv s c :
  In c (run block_prof_pattern (Cur pv s None)) ->
  prof_count_annotation s.
Proof.
  unfold block_prof_pattern. intros H.
  apply in_run_seq in H. destruct H as (c1 & H1 & H).
  apply in_run_seq in H. destruct H as (c2 & H2 & H).
  apply in_run_seq in H. destruct H as (c3 & H3 & H).
  apply in_run_seq in H. destruct H as (c4 & H4 & H5).
  apply in_run_str in H1. destruct H1 as (E1 & _). cbn [rest] in E1.
  apply in_run_plus in H2. destruct H2 as (d & ds & E2 & P2 & _).
  apply in_run_star in H3. destruct H3 as (mid & E3 & P3 & _).
  apply in_run_str in H4. destruct H4 as (E4 & _).
  cbn [run] in H5. apply in_map_iff in H5. destruct H5 as (c5 & _ & H5).
  apply in_run_plus in H5. destruct H5 as (e & es & E5 & P5 & _).
  simpl in P2. apply andb_true_iff in P2. destruct P2 as [Pd Pds].
  simpl in P5. apply andb_true_iff in P5. destruct P5 as [Pe _].
  exists [], d, (ds ++ mid), e, (es ++ rest c5). repeat split; auto.
  - rewrite E1, E2, E3, E4, E5. rewrite <- !app_assoc. reflexivity.
  - rewrite forallb_app, (forallb_digit_not_nl _ Pds), P3. reflexivity.
Qed.

(** [count:] cannot begin inside [!prof !] and its first digit. *)
Lemma prof_prefix_align d w a2 z :
  txt "!prof !" ++ d :: w = a2 ++ txt "count:" ++ z ->
  is_digit d = true ->
  exists m, a2 = txt "!prof !" ++ d :: m /\ w = m ++ txt "count:" ++ z.
Proof.
  intros E Hd.
  do 7 (destruct a2 as [|? a2]; [discriminate E|];
        cbn in E; injection E as <- E).
  destruct a2 as [|? a2].
  - cbn in E. injection E as -> _. discriminate Hd.
  - cbn in E. injection E as <- E. exists a2. split; [reflexivity|exact E].
Qed.

Lemma entry_freq_zero t :
  ~ prof_count_annotation t ->
  match search prof_pattern t with
  | Some entry_block_match =>
      match search count_pattern (m_text entry_block_match) with
      | Some freq_match => int_of_digits (group1 freq_match)
      | None => 0%Z
      end
  | None => 0%Z
  end = 0%Z.
Proof.
  intros H. destruct (search prof_pattern t) as [m1|] eqn:S1; [|reflexivity].
  destruct (search count_pattern (m_text m1)) as [m2|] eqn:S2; [|reflexivity].
  exfalso. apply H.
  apply search_in, finditer_in in S1.
  destruct S1 as (a & u & b & c & Et & _ & Eu & _ & Er & Hm).
  apply match_at_in, prof_pattern_shape in Hm.
  destruct Hm as (d & w & E & Hd & Hw). rewrite Er in E.
  assert (E' : u ++ b = (txt "!prof !" ++ d :: w) ++ b).
  { rewrite E. rewrite <- app_assoc. reflexivity. }
  apply app_inv_tail in E'.
  apply search_in, finditer_in in S2.
  destruct S2 as (a2 & u2 & b2 & c2 & Et2 & _ & _ & _ & _ & Hm2).
  apply match_at_in, count_pattern_shape in Hm2.
  destruct Hm2 as (e & b' & E2 & He).
  rewrite Eu, E', E2 in Et2.
  destruct (@prof_prefix_align d w a2 (e :: b') Et2 Hd) as (m & _ & Ew).
  rewrite Ew, forallb_app in Hw. apply andb_true_iff in Hw.
  destruct Hw as [Hm _].
  exists a, d, m, e, (b' ++ b). repeat split; auto.
  rewrite Et, E', Ew. rewrite <- !app_assoc. simpl.
  rewrite <- !app_assoc. reflexivity.
Qed.

Lemma block_freqs_nil t :
  ~ prof_count_annotation t ->
  flat_map
    (fun block =>
       match search block_prof_pattern block with
       | Some freq_match => [int_of_digits (group1 freq_match)]
       | None => []
       end)
    (get_basic_blocks t) = [].
Proof.
  intros H.
  assert (G : forall l, (forall b, In b l -> substring b t) ->
    flat_map
      (fun block =>
         match search block_prof_pattern block with
         | Some freq_match => [int_of_digits (group1 freq_match)]
         | None => []
         end) l = []).
  { induction l as [|blk l IH]; intros Hl; [reflexivity|]. simpl.
    rewrite IH; [|intros b Hb; apply Hl; right; exact Hb].
    destruct (search block_prof_pattern blk) as [m|] eqn:S; [|reflexivity].
    exfalso. apply H. apply search_in, finditer_in in S.
    destruct S as (a & u & b & c & Et & _ & _ & _ & _ & Hm).
    apply match_at_in, block_prof_pattern_shape in Hm.
    apply (@prof_count_annotation_substring (u ++ b) t); [|exact Hm].
    apply (@substring_trans _ blk).
    - exists a, []. rewrite app_nil_r. exact Et.
    - apply Hl. left. reflexivity. }
  apply G. intros b. apply basic_block_substring.
Qed.

Lemma no_anchor_no_headers t :
  ~ loop_anchor_line t -> findall loop_header_pattern t = [].
Proof.
  intros H. destruct (findall loop_header_pattern t) as [|h l] eqn:E;
    [reflexivity|].
  exfalso. apply H.
  assert (Hin : In h (findall loop_header_pattern t))
    by (rewrite E; left; reflexivity).
  apply loop_header_shape in Hin.
  destruct Hin as ((u & -> & Hu) & a & b & Et).
  exists a, u, b. split; [|exact Hu]. rewrite Et.
  rewrite <- !app_assoc. reflexivity.
Qed.

Lemma no_anchor_loop_features t :
  ~ loop_anchor_line t -> get_loop_features t = Some zero_loop_features.
Proof.
  intros H. unfold get_loop_features.
  rewrite (no_anchor_no_headers H). reflexivity.
Qed.

(** C5: missing metadata is never an error and gives zero defaults.  A
    function text without loop anchor line has all five loop features 0, in
    [get_loop_features] and in its row; in a module without any
    profiling-count annotation every row has [entry_block_freq] and
    [max_callsite_block_freq] 0.  The methods return in both cases: no
    exception is raised. *)
Theorem missing_metadata_gives_zero :
  (forall t, ~ loop_anchor_line t ->
     get_loop_features t = Some zero_loop_features
     /\ forall fs n k, In k (map fst zero_loop_features) ->
          exists r, feature_row fs n t = Some r
                    /\ lookup k r = Some (VNum 0))
  /\ (forall ir,
        ~ prof_count_annotation ir ->
        exists rows,
          extract_all_features ir = Some rows
          /\ forall r, In r rows ->
               lookup "entry_block_freq" r = Some (VNum 0)
               /\ lookup "max_callsite_block_freq" r = Some (VNum 0)).
Proof.
  split.
  - intros t H. split; [apply no_anchor_loop_features; exact H|].
    intros fs n k Hk.
    destruct (feature_row_shape fs n t)
      as (a1 & a2 & l1 & l2 & l3 & l4 & l5 & c1 & c2 & c3 & c4 & c5
          & _ & _ & EL & _ & E & _).
    rewrite (no_anchor_loop_features H) in EL. unfold zero_loop_features in EL.
    injection EL as <- <- <- <- <-. eexists. split; [exact E|]. simpl in Hk.
    repeat (destruct Hk as [<-|Hk]; [reflexivity|]). destruct Hk.
  - intros ir H.
    destruct (extract_all_features_returns ir) as (rows & Erows & _).
    exists rows. split; [exact Erows|]. intros r Hr.
    apply (in_extract_all_features ir r Erows) in Hr.
    destruct Hr as (n & t & Hin & Er).
    assert (Ht : ~ prof_count_annotation t).
    { intros Ha. apply H.
      apply (prof_count_annotation_substring
               (function_text_substring _ _ _ Hin) Ha). }
    destruct (feature_row_shape (split_into_functions ir) n t)
      as (a1 & a2 & l1 & l2 & l3 & l4 & l5 & c1 & c2 & c3 & c4 & c5
          & _ & _ & _ & EC & E & _).
    unfold get_call_graph_features in EC.
    rewrite (entry_freq_zero Ht), (block_freqs_nil Ht) in EC.
    injection EC as _ _ _ <- <-. rewrite E in Er. injection Er as <-.
    split; reflexivity.
Qed.

Lemma not_contains sub t : contains sub t = false -> ~ substring sub t.
Proof.
  unfold contains. intros H (a & b & ->).
  destruct (find_exists sub a b) as (i & Hi). rewrite Hi in H. discriminate.
Qed.

Lemma no_loop_word_no_anchor t :
  contains (txt "loop:") t = false -> ~ loop_anchor_line t.
Proof.
  intros H (a & u & b & -> & _). apply (not_contains H).
  exists a, (u ++ nl :: b). reflexivity.
Qed.

Lemma no_prof_word_no_annotation t :
  contains (txt "!prof !") t = false -> ~ prof_count_annotation t.
Proof.
  intros H (a & d & m & e & b & -> & _). apply (not_contains H).
  exists a, (d :: m ++ txt "count:" ++ e :: b). reflexivity.
Qed.

Lemma missing_metadata_gives_zero_witness :
  (get_loop_features text_B = Some zero_loop_features
   /\ forall fs n k, In k (map fst zero_loop_features) ->
        exists r, feature_row fs n text_B = Some r
                  /\ lookup k r = Some (VNum 0))
  /\ (exists rows,
        extract_all_features module_AB = Some rows
        /\ forall r, In r rows ->
             lookup "entry_block_freq" r = Some (VNum 0)
             /\ lookup "max_callsite_block_freq" r = Some (VNum 0)).
Proof.
  split.
  - apply (proj1 missing_metadata_gives_zero text_B).
    apply no_loop_word_no_anchor. vm_compute. reflexivity.
  - apply (proj2 missing_metadata_gives_zero module_AB).
    apply no_prof_word_no_annotation. vm_compute. reflexivity.
Defined.

(** * The function splitter *)

Lemma look_nonempty r c :
  run (Look r) c <> [] <-> run r c <> [].
Proof.
  simpl. destruct (run r c); split; intros H; try congruence;
    try discriminate.
Qed.

Lemma in_run_look r c c' :
  In c' (run (Look r) c) -> rest c' = rest c /\ run r c <> [].
Proof.
  simpl. destruct (run r c) as [|c0 l]; [intros []|].
  intros [<-|[]]. split; [reflexivity|discriminate].
Qed.

Lemma in_run_endz c c' : In c' (run EndZ c) <-> rest c = [] /\ c' = c.
Proof.
  simpl. destruct (rest c); split.
  - intros [<-|[]]. auto.
  - intros [_ ->]. left. reflexivity.
  - intros [].
  - intros [H _]. discriminate.
Qed.

Lemma nonempty_in {A} (l : list A) : l <> [] <-> exists x, In x l.
Proof.
  destruct l as [|x l].
  - split; [congruence | intros (x & [])].
  - split; [intros _; exists x; left; reflexivity | discriminate].
Qed.

(** The lookahead succeeds exactly on the texts described by
    [definition_ahead]. *)
Lemma lookahead_iff pv w g :
  run (Seq (Lit nl) (Seq (Star is_space) (Alt (Str (txt "define")) EndZ)))
      (Cur pv w g) <> []
  <-> definition_ahead w.
Proof.
  rewrite nonempty_in. split.
  - intros (c & H). apply in_run_seq in H. destruct H as (c1 & H1 & H).
    apply in_run_seq in H. destruct H as (c2 & H2 & H3).
    apply in_run_lit in H1. destruct H1 as (E1 & _). cbn [rest] in E1.
    apply in_run_star in H2. destruct H2 as (ws & E2 & P2 & _).
    exists ws, (rest c2). rewrite E1, E2. repeat split; auto.
    apply in_run_alt in H3. destruct H3 as [H3|H3].
    + right. apply in_run_str in H3. destruct H3 as (E3 & _). eauto.
    + left. apply in_run_endz in H3. tauto.
  - intros (ws & w' & -> & Hws & Hw').
    destruct Hw' as [->|(w'' & ->)].
    + exists (Cur (prev_after (Some nl) ws) [] g).
      apply in_run_seq. exists (Cur (Some nl) (ws ++ []) g). split.
      { apply in_run_lit. simpl. auto. }
      apply in_run_seq. exists (Cur (prev_after (Some nl) ws) [] g). split.
      { apply in_run_star. exists ws. simpl. auto. }
      apply in_run_alt. right. apply in_run_endz. auto.
    + exists (Cur (prev_after (prev_after (Some nl) ws) (txt "define")) w'' g).
      apply in_run_seq.
      exists (Cur (Some nl) (ws ++ txt "define" ++ w'') g). split.
      { apply in_run_lit. simpl. auto. }
      apply in_run_seq.
      exists (Cur (prev_after (Some nl) ws) (txt "define" ++ w'') g). split.
      { apply in_run_star. exists ws. simpl. auto. }
      apply in_run_alt. left. apply in_run_str. simpl. auto.
Qed.

Lemma forallb_any u : forallb any_char u = true.
Proof. induction u; simpl; auto. Qed.

(** The tail [{.*?}(?=...)] matches from an opening brace to a closing one
    that the lookahead accepts. *)
Lemma region_tail_sound pv y g c :
  In c (run region_tail (Cur pv y g)) ->
  exists v, y = "{"%char :: v ++ "}"%char :: rest c
            /\ definition_ahead (rest c).
Proof.
  unfold region_tail, next_definition_ahead. intros H.
  apply in_run_seq in H. destruct H as (c1 & H1 & H).
  apply in_run_seq in H. destruct H as (c2 & H2 & H).
  apply in_run_seq in H. destruct H as (c3 & H3 & H4).
  apply in_run_lit in H1. destruct H1 as (E1 & _). cbn [rest] in E1.
  apply in_run_lazy in H2. destruct H2 as (v & E2 & _).
  apply in_run_lit in H3. destruct H3 as (E3 & _).
  apply in_run_look in H4. destruct H4 as (E4 & H4).
  rewrite <- (cur_eta c3) in H4. apply lookahead_iff in H4.
  exists v. rewrite E1, E2, E3, E4. auto.
Qed.

Lemma region_tail_complete pv v w g :
  definition_ahead w ->
  run region_tail (Cur pv ("{"%char :: v ++ "}"%char :: w) g) <> [].
Proof.
  intros Hw. apply nonempty_in.
  assert (Hl : run next_definition_ahead (Cur (Some "}"%char) w g) <> []).
  { apply look_nonempty. apply lookahead_iff. exact Hw. }
  apply nonempty_in in Hl. destruct Hl as (c & Hc). exists c.
  unfold region_tail. apply in_run_seq.
  exists (Cur (Some "{"%char) (v ++ "}"%char :: w) g). split.
  { apply in_run_lit. simpl. auto. }
  apply in_run_seq.
  exists (Cur (prev_after (Some "{"%char) v) ("}"%char :: w) g). split.
  { apply in_run_lazy. exists v. simpl. split; [reflexivity|].
    split; [apply forallb_any | auto]. }
  apply in_run_seq. exists (Cur (Some "}"%char) w g). split.
  { apply in_run_lit. simpl. auto. }
  exact Hc.
Qed.

(** Every match of [function_pattern]: [define], anything, then a tail. *)
Lemma function_pattern_sound pv s c :
  In c (run function_pattern (Cur pv s None)) ->
  exists u v, s = txt "define" ++ u ++ "{"%char :: v ++ "}"%char :: rest c
              /\ definition_ahead (rest c).
Proof.
  unfold function_pattern. intros H.
  apply in_run_seq in H. destruct H as (c1 & H1 & H).
  apply in_run_seq in H. destruct H as (c2 & H2 & H3).
  apply in_run_str in H1. destruct H1 as (E1 & _). cbn [rest] in E1.
  apply in_run_star in H2. destruct H2 as (u & E2 & _).
  rewrite <- (cur_eta c2) in H3. apply region_tail_sound in H3.
  destruct H3 as (v & E3 & Ha). exists u, v. rewrite E1, E2, E3. auto.
Qed.

Lemma run_str_at_most_one w : forall c,
  run (Str w) c = [] \/ exists c1, run (Str w) c = [c1].
Proof.
  induction w as [|a w IH]; intros c.
  - right. exists c. reflexivity.
  - cbn [Str run]. destruct (rest c) as [|x s']; [left; reflexivity|].
    destruct (Ascii.eqb x a); [|left; reflexivity].
    cbn [flat_map]. rewrite app_nil_r. apply IH.
Qed.

Lemma flat_map_nil_in {A B} (f : A -> list B) l x :
  flat_map f l = [] -> In x l -> f x = [].
Proof.
  induction l as [|y l IH]; [intros _ []|]. simpl. intros H.
  apply app_eq_nil in H. destruct H as [H1 H2].
  intros [<-|Hx]; auto.
Qed.

(** Greedy [.*] under DOTALL, followed by [r]: the match reported is one of
    [r] on the shortest suffix on which [r] matches at all. *)
Lemma greedy_any_head r : forall t pv g c,
  hd_error (flat_map (run r) (star_run any_char pv t g)) = Some c ->
  exists x y,
    t = x ++ y
    /\ In c (run r (Cur (prev_after pv x) y g))
    /\ forall x' y', t = x' ++ y' -> length y' < length y ->
         run r (Cur (prev_after pv x') y' g) = [].
Proof.
  induction t as [|z t IH]; intros pv g c H.
  - simpl in H. rewrite app_nil_r in H. exists [], []. split; [reflexivity|].
    split; [apply hd_error_in; exact H|].
    intros x' y' _ Hlt. simpl in Hlt. lia.
  - cbn [star_run any_char] in H. rewrite flat_map_app in H.
    destruct (flat_map (run r) (star_run any_char (Some z) t g))
      as [|c0 l] eqn:E.
    + simpl in H. rewrite app_nil_r in H. exists [], (z :: t).
      split; [reflexivity|]. split; [apply hd_error_in; exact H|].
      intros x' y' Et Hlt. destruct x' as [|z' x'].
      * simpl in Et. subst y'. lia.
      * simpl in Et. injection Et as <- Et.
        apply (flat_map_nil_in _ _ _ E). apply in_star_run.
        exists x'. cbn [rest prev grp]. split; [exact Et|].
        split; [apply forallb_any|]. split; reflexivity.
    + simpl in H. injection H as ->.
      destruct (IH (Some z) g c) as (x & y & Et & Hin & Hmin).
      { rewrite E. reflexivity. }
      exists (z :: x), y. split; [simpl; rewrite Et; reflexivity|].
      split; [exact Hin|]. intros x' y' Et' Hlt.
      destruct x' as [|z' x'].
      * simpl in Et'. subst y'. rewrite Et in Hlt. simpl in Hlt.
        rewrite length_app in Hlt. lia.
      * simpl in Et'. injection Et' as <- Et'. apply Hmin; assumption.
Qed.

(** The match [function_pattern] reports at a position: after [define] the
    greedy [.*] runs to the last opening brace from which the tail can still
    match. *)
Lemma function_pattern_head pv s c :
  match_at function_pattern pv s = Some c ->
  exists x y v,
    s = txt "define" ++ x ++ y
    /\ y = "{"%char :: v ++ "}"%char :: rest c
    /\ definition_ahead (rest c)
    /\ forall x' y' v' w', x ++ y = x' ++ y' -> length y' < length y ->
         y' = "{"%char :: v' ++ "}"%char :: w' -> ~ definition_ahead w'.
Proof.
  unfold match_at, function_pattern. cbn [run].
  destruct (run_str_at_most_one (txt "define") (Cur pv s None))
    as [E|(c1 & E)]; rewrite E; [discriminate|].
  assert (H1 : In c1 (run (Str (txt "define")) (Cur pv s None)))
    by (rewrite E; left; reflexivity).
  apply in_run_str in H1. destruct H1 as (E1 & _ & G1). cbn [rest grp] in *.
  cbn [flat_map]. rewrite app_nil_r. intros H.
  rewrite G1 in H. apply greedy_any_head in H.
  destruct H as (x & y & Et & Hin & Hmin).
  apply region_tail_sound in Hin. destruct Hin as (v & Ey & Ha).
  exists x, y, v. split; [rewrite E1, Et; reflexivity|].
  split; [exact Ey|]. split; [exact Ha|].
  intros x' y' v' w' Ex Hlt Ey' Hw'. rewrite <- Et in Ex.
  specialize (Hmin x' y' Ex Hlt). rewrite Ey' in Hmin.
  revert Hmin. apply region_tail_complete. exact Hw'.
Qed.

Ltac list_norm :=
  repeat (rewrite <- app_assoc || rewrite <- app_comm_cons).

Lemma scan_skip r : forall s off pv k,
  k <= length s ->
  scan r off pv s k
  = scan r (off + k) (prev_after pv (firstn k s)) (skipn k s) 0.
Proof.
  induction s as [|z s IH]; intros off pv k Hk.
  - simpl in Hk. assert (k = 0) by lia. subst k. simpl.
    rewrite Nat.add_0_r. reflexivity.
  - destruct k as [|k].
    + simpl firstn. simpl skipn. simpl prev_after. rewrite Nat.add_0_r.
      reflexivity.
    + cbn [scan]. rewrite IH by (simpl in Hk; lia).
      simpl. f_equal. lia.
Qed.

(** Past a reported region no further region can be matched: its opening
    brace would have been preferred by the greedy [.*] of the first. *)
Lemma no_second_region pv s c :
  match_at function_pattern pv s = Some c ->
  forall off pv', scan function_pattern off pv' (rest c) 0 = [].
Proof.
  intros H off pv'. apply function_pattern_head in H.
  destruct H as (x & y & v & Es & Ey & _ & Hmin).
  apply scan_nil. intros a b Er. apply match_at_none. intros c' Hc'.
  apply function_pattern_sound in Hc'. destruct Hc' as (u' & v' & Eb & Ha).
  remember (rest c) as rc eqn:Erc. remember (rest c') as rc' eqn:Erc'.
  clear Erc Erc' Es. subst rc b.
  apply (Hmin (x ++ "{"%char :: v ++ "}"%char :: a ++ txt "define" ++ u')
              ("{"%char :: v' ++ "}"%char :: rc') v' rc').
  - rewrite Ey. list_norm. reflexivity.
  - rewrite Ey. cbn [length]. rewrite !length_app. cbn [length].
    rewrite !length_app. cbn [length]. rewrite !length_app. cbn [length].
    lia.
  - reflexivity.
  - exact Ha.
Qed.

Lemma scan_function_at_most_one : forall s off pv,
  length (scan function_pattern off pv s 0) <= 1.
Proof.
  induction s as [|z s IH]; intros off pv.
  - simpl. destruct (match_at function_pattern pv []); simpl; lia.
  - cbn [scan]. destruct (match_at function_pattern pv (z :: s)) as [c|] eqn:E;
      [|apply IH].
    destruct (mk_match_text _ _ _ off E) as (u & Eu & _ & En).
    rewrite En.
    destruct (function_pattern_head _ _ E) as (x & y & v & Es & Ey & _).
    destruct u as [|z' u].
    { simpl in Eu. assert (L1 := f_equal (@length ascii) Es).
      assert (L2 := f_equal (@length ascii) Ey). rewrite <- Eu in L2.
      rewrite !length_app in L1. cbn [length] in L2.
      rewrite length_app in L2. cbn [length] in L1, L2. lia. }
    simpl in Eu. injection Eu as <- Eu.
    rewrite scan_skip by (rewrite Eu, length_app; simpl; lia).
    replace (skipn (length (z :: u) - 1) s) with (rest c).
    + rewrite (no_second_region _ _ E). simpl. lia.
    + simpl. rewrite Nat.sub_0_r, Eu, skipn_app, Nat.sub_diag, skipn_all.
      reflexivity.
Qed.

Lemma dict_set_length {K V : Type} (keq : K -> K -> bool) (k : K) (v : V)
    (d : list (K * V)) :
  length (dict_set keq k v d) <= S (length d).
Proof.
  induction d as [|[k0 v0] d IH]; simpl; [lia|].
  destruct (keq k0 k); simpl; lia.
Qed.

(** The function mapping never has more than one entry: whatever the module
    text, the first region matched swallows every later definition. *)
Lemma split_at_most_one ir : length (split_into_functions ir) <= 1.
Proof.
  unfold split_into_functions, finditer.
  assert (H := scan_function_at_most_one ir 0 None).
  destruct (scan function_pattern 0 None ir 0) as [|m [|m' l]].
  - simpl. lia.
  - simpl. lia.
  - simpl in H. lia.
Qed.

(** C1: the module text with the two definitions [A] and [B] yields one row
    only.  The splitter returns a single region that runs from [A]'s
    [define] to [B]'s closing brace, named [A]; its [call_usage] is 3, not
    2, and there is no row for [B] whose [is_recursive] could be 1. *)
Theorem two_definitions_one_row :
  exists r,
    extract_all_features module_AB = Some [r]
    /\ split_into_functions module_AB = [(txt "A", removelast module_AB)]
    /\ lookup "function_name" r = Some (VStr (txt "A"))
    /\ lookup "call_usage" r = Some (VNat 3)
    /\ lookup "is_recursive" r = Some (VNat 0)
    /\ lookup "caller_height" r = Some (VNat 0)
    /\ forall rows r',
         extract_all_features module_AB = Some rows -> In r' rows ->
         lookup "function_name" r' <> Some (VStr (txt "B")).
Proof.
  vm_compute. eexists. split; [reflexivity|].
  repeat (split; [reflexivity|]).
  intros rows r' E Hin. injection E as <-.
  destruct Hin as [<-|[]]. discriminate.
Qed.

(** What the analyzer computes from the mapping a correct split of
    [module_AB] would give: the values the scenario expects. *)
Lemma intended_mapping_rows :
  exists rA rB,
    extract_rows functions_AB = Some [rA; rB]
    /\ lookup "call_usage" rA = Some (VNat 2)
    /\ lookup "is_recursive" rA = Some (VNat 0)
    /\ lookup "is_recursive" rB = Some (VNat 1)
    /\ lookup "caller_height" rB = Some (VNat 1)
    /\ height_loop functions_AB 3 0 text_B [] = Some 1.
Proof.
  vm_compute. do 2 eexists. split; [reflexivity|].
  repeat split; reflexivity.
Qed.

(** No module text is split into the two functions. *)
Lemma no_text_splits_in_two ir : split_into_functions ir <> functions_AB.
Proof.
  intros H. assert (L := split_at_most_one ir). rewrite H in L.
  simpl in L. lia.
Qed.

Lemma app_split_before {A} (x : A) : forall l1 l2 p d,
  l1 ++ x :: l2 = p ++ d -> ~ In x d ->
  exists k, p = l1 ++ x :: k /\ l2 = k ++ d.
Proof.
  induction l1 as [|z l1 IH]; intros l2 p d E Hd.
  - destruct p as [|y p].
    + simpl in E. subst d. exfalso. apply Hd. left. reflexivity.
    + simpl in E. injection E as <- E. exists p. auto.
  - destruct p as [|y p].
    + simpl in E. subst d. exfalso. apply Hd. right. apply in_or_app.
      right. left. reflexivity.
    + simpl in E. injection E as <- E.
      destruct (IH l2 p d E Hd) as (k & -> & ->). exists k. auto.
Qed.

(** * Further properties of the splitter *)

Lemma function_pattern_complete pv u v w :
  definition_ahead w ->
  run function_pattern
      (Cur pv (txt "define" ++ u ++ "{"%char :: v ++ "}"%char :: w) None)
  <> [].
Proof.
  intros Hw.
  assert (Ht := @region_tail_complete
                  (prev_after (prev_after pv (txt "define")) u) v w None Hw).
  apply nonempty_in in Ht. destruct Ht as (c & Hc).
  apply nonempty_in. exists c. unfold function_pattern. apply in_run_seq.
  exists (Cur (prev_after pv (txt "define"))
              (u ++ "{"%char :: v ++ "}"%char :: w) None). split.
  { apply in_run_str. simpl. auto. }
  apply in_run_seq.
  exists (Cur (prev_after (prev_after pv (txt "define")) u)
              ("{"%char :: v ++ "}"%char :: w) None). split.
  { apply in_run_star. exists u. simpl. split; [reflexivity|].
    split; [apply forallb_any | auto]. }
  exact Hc.
Qed.

Lemma dict_set_not_nil {K V : Type} (keq : K -> K -> bool) (k : K) (v : V)
    (d : list (K * V)) :
  dict_set keq k v d <> [].
Proof. destruct d as [|[k0 v0] d]; simpl; [|destruct (keq k0 k)]; discriminate. Qed.

Lemma split_nil_iff ir :
  split_into_functions ir = [] <-> finditer function_pattern ir = [].
Proof.
  unfold split_into_functions.
  assert (H := scan_function_at_most_one ir 0 None). unfold finditer.
  destruct (scan function_pattern 0 None ir 0) as [|m [|m' l]].
  - simpl. tauto.
  - simpl. split; discriminate.
  - simpl in H. lia.
Qed.







(** X1: whatever the module text, [extract_all_features] returns at most one
    row: the first region matched leaves nothing for a second match. *)
Theorem at_most_one_row (ir_content : text) :
  exists rows,
    extract_all_features ir_content = Some rows /\ length rows <= 1.
Proof.
  destruct (extract_all_features_returns ir_content) as (rows & E & F).
  exists rows. split; [exact E|].
  rewrite <- (Forall2_length F). apply split_at_most_one.
Qed.

(** X2: the function mapping is non-empty exactly when the module text
    holds [define], later an opening brace, and later a closing brace that
    a newline, blanks and then [define] or the end of the text follow. *)
Theorem split_nonempty_iff (ir_content : text) :
  split_into_functions ir_content <> [] <->
  exists a u v w,
    ir_content = a ++ txt "define" ++ u ++ "{"%char :: v ++ "}"%char :: w
    /\ definition_ahead w.
Proof.
  rewrite split_nil_iff. split.
  - intros H. apply nonempty_in in H. destruct H as (m & Hm).
    apply finditer_in in Hm.
    destruct Hm as (a & u0 & b & c & Et & _ & _ & _ & Er & Hm).
    apply match_at_in, function_pattern_sound in Hm.
    destruct Hm as (u & v & E & Ha). exists a, u, v, (rest c).
    split; [rewrite Et, E; reflexivity | exact Ha].
  - intros (a & u & v & w & Et & Hw) Hnil.
    assert (Hr := @function_pattern_complete (prev_after None a) u v w Hw).
    apply nonempty_in in Hr. destruct Hr as (c & Hc).
    apply (@search_finds function_pattern ir_content a _ c Et Hc).
    unfold search. rewrite Hnil. reflexivity.
Qed.

(** X3: every entry of the function mapping is keyed by the name extracted
    from its text, and its text is a stretch of the module that starts with
    [define], ends with a closing brace and is followed by a newline, blanks
    and then [define] or the end of the text. *)
Theorem split_entry_shape (ir_content n region : text) :
  In (n, region) (split_into_functions ir_content) ->
  n = get_function_name region
  /\ exists a x body w,
       ir_content = a ++ region ++ w
       /\ region = txt "define" ++ x ++ "{"%char :: body ++ ["}"%char]
       /\ definition_ahead w.
Proof.
  intros H. apply split_into_functions_in in H.
  destruct H as (En & m & Hm & ->). split; [exact En|].
  apply finditer_in in Hm.
  destruct Hm as (a & u & b & c & Et & _ & Eu & _ & Er & Hm).
  apply match_at_in, function_pattern_sound in Hm.
  destruct Hm as (x & body & E & Ha). rewrite Er in E, Ha.
  assert (E' : u ++ b
               = (txt "define" ++ x ++ "{"%char :: body ++ ["}"%char]) ++ b).
  { rewrite E. list_norm. reflexivity. }
  apply app_inv_tail in E'.
  exists a, x, body, b. rewrite Eu. auto.
Qed.

Lemma split_entry_shape_witness :
  txt "A" = get_function_name (removelast module_AB)
  /\ exists a x body w,
       module_AB = a ++ removelast module_AB ++ w
       /\ removelast module_AB
          = txt "define" ++ x ++ "{"%char :: body ++ ["}"%char]
       /\ definition_ahead w.
Proof.
  apply (split_entry_shape module_AB). vm_compute. left. reflexivity.
Defined.

(** X4: the region mapped is closed from the last opening brace of the
    module from which a closing brace accepted by the lookahead can still be
    reached: no brace pair further on, inside the region's last scope or
    after the region, ends where a newline, blanks and [define] or the end
    of the text follow.  Every later definition is therefore inside the
    region or lost. *)
Theorem split_region_is_last (ir_content n region : text) :
  In (n, region) (split_into_functions ir_content) ->
  exists a x body w,
    ir_content = a ++ region ++ w
    /\ region = txt "define" ++ x ++ "{"%char :: body ++ ["}"%char]
    /\ forall p q s,
         body ++ "}"%char :: w = p ++ "{"%char :: q ++ "}"%char :: s ->
         ~ definition_ahead s.
Proof.
  intros H. apply split_into_functions_in in H.
  destruct H as (_ & m & Hm & ->). apply finditer_in in Hm.
  destruct Hm as (a & u & b & c & Et & _ & Eu & _ & Er & Hm).
  apply function_pattern_head in Hm.
  destruct Hm as (x & y & body & E & Ey & _ & Hmin). rewrite Er in Ey.
  assert (E' : u ++ b
               = (txt "define" ++ x ++ "{"%char :: body ++ ["}"%char]) ++ b).
  { rewrite E, Ey. list_norm. reflexivity. }
  apply app_inv_tail in E'.
  exists a, x, body, b. rewrite Eu. split; [exact Et|]. split; [exact E'|].
  intros p q s Es.
  apply (Hmin (x ++ "{"%char :: p) ("{"%char :: q ++ "}"%char :: s) q s).
  - rewrite Ey. list_norm. rewrite Es. reflexivity.
  - rewrite Ey. cbn [length]. rewrite Es. rewrite !length_app. cbn [length].
    rewrite !length_app. cbn [length]. lia.
  - reflexivity.
Qed.

Lemma split_region_is_last_witness :
  exists a x body w,
    module_AB = a ++ removelast module_AB ++ w
    /\ removelast module_AB
       = txt "define" ++ x ++ "{"%char :: body ++ ["}"%char]
    /\ forall p q s,
         body ++ "}"%char :: w = p ++ "{"%char :: q ++ "}"%char :: s ->
         ~ definition_ahead s.
Proof.
  apply (split_region_is_last module_AB (txt "A")).
  vm_compute. left. reflexivity.
Defined.

(** * Further properties of names and of the caller walk *)

(** X5: the name [_get_function_name] returns is never empty and holds only
    characters of [[\w.]], the sentinel included; spliced into the pattern
    of [_find_caller] it cannot form an ill-formed or empty pattern. *)
Theorem function_name_well_formed (function_text : text) :
  get_function_name function_text <> []
  /\ forallb is_name_char (get_function_name function_text) = true.
Proof.
  destruct (has_token function_text) eqn:Ht.
  - apply has_token_iff, first_token_exists in Ht.
    destruct Ht as (pre & name & post & Hf).
    rewrite (get_function_name_first_token Hf).
    destruct Hf as (_ & Hne & Hn & _). auto.
  - rewrite get_function_name_unknown.
    + split; [discriminate | reflexivity].
    + intros H. apply has_token_iff in H. congruence.
Qed.

Lemma height_loop_ge fs : forall fuel h cur visited r,
  height_loop fs fuel h cur visited = Some r -> h <= r.
Proof.
  induction fuel as [|fuel IH]; intros h cur visited r H; [discriminate|].
  rewrite height_loop_step in H.
  destruct (find_caller fs cur) as [caller|];
    [|injection H as <-; lia].
  destruct (in_set _ visited); [injection H as <-; lia|].
  apply IH in H. lia.
Qed.

(** Whatever fuel lets the loop finish gives the value the method returns. *)
Lemma height_any_fuel fs t fuel r :
  height_loop fs fuel 0 t [] = Some r -> calculate_caller_height fs t = r.
Proof.
  intros H. destruct (calculate_caller_height_runs fs t) as [E _].
  assert (E1 := @height_loop_more_fuel fs _ (fuel + height_fuel fs) _ _ _ _ H).
  assert (E2 := @height_loop_more_fuel fs _ (fuel + height_fuel fs) _ _ _ _ E).
  rewrite E1 in E2 by lia. injection E2 as ->; [reflexivity | lia].
Qed.

Lemma height_pos_of_caller fs t c :
  find_caller fs t = Some c -> 1 <= calculate_caller_height fs t.
Proof.
  intros H. destruct (calculate_caller_height_runs fs t) as [E _].
  unfold height_fuel in E. replace (length fs + 2) with (S (length fs + 1))
    in E by lia.
  rewrite height_loop_step, H in E.
  change (in_set (get_function_name c) []) with false in E. cbv iota in E.
  apply height_loop_ge in E. lia.
Qed.

(** X6: the caller height of a function is 0 exactly when no function text
    of the module matches the call pattern built from its name; as soon as
    one does, the height is at least 1. *)
Theorem caller_height_zero_iff (functions : list (text * text))
    (function_text : text) :
  calculate_caller_height functions function_text = 0
  <-> find_caller functions function_text = None.
Proof.
  split.
  - intros H. destruct (find_caller functions function_text) as [c|] eqn:E;
      [|reflexivity].
    apply height_pos_of_caller in E. lia.
  - intros H. apply (@height_any_fuel functions function_text 1).
    rewrite height_loop_step, H. reflexivity.
Qed.

Lemma find_finds {A} (f : A -> bool) (l : list A) x :
  In x l -> f x = true -> List.find f l <> None.
Proof.
  intros Hin Hf Hn. apply (find_none f l Hn) in Hin. congruence.
Qed.

(** X7: a call to any name that merely begins with the function's name
    counts as a call to the function, because the name is spliced into the
    pattern without a closing boundary: the function then has a caller and a
    caller height of at least 1. *)
Theorem longer_name_counts_as_caller (functions : list (text * text))
    (function_text caller suffix : text) :
  In caller (map snd functions) ->
  calls_name caller (get_function_name function_text ++ suffix) ->
  find_caller functions function_text <> None
  /\ 1 <= calculate_caller_height functions function_text.
Proof.
  intros Hin (a & m & b & E & Hm).
  assert (Hc : calls_name caller (get_function_name function_text)).
  { exists a, m, (suffix ++ b). split; [|exact Hm]. rewrite E.
    list_norm. reflexivity. }
  apply calls_name_found in Hc.
  assert (Hf : find_caller functions function_text <> None).
  { unfold find_caller. eapply find_finds; [exact Hin|].
    destruct (search _ caller); [reflexivity | contradiction]. }
  split; [exact Hf|].
  destruct (find_caller functions function_text) as [c|] eqn:Ec;
    [|contradiction].
  apply (height_pos_of_caller _ _ Ec).
Qed.

Lemma longer_name_counts_as_caller_witness :
  find_caller functions_g_f text_f <> None
  /\ 1 <= calculate_caller_height functions_g_f text_f.
Proof.
  apply (@longer_name_counts_as_caller functions_g_f text_f text_calls_foo
           (txt "oo")).
  - vm_compute. left. reflexivity.
  - exists (txt "define void @g() {
  "), (txt " void "), (txt "()
  ret void
}"). split; reflexivity.
Defined.

(** X8: when the caller found for a function is found, in turn, to be
    called by that function (two mutually recursive functions, or one
    function that is its own first caller), the height is exactly 1. *)
Theorem two_cycle_height (functions : list (text * text)) (ta tb : text) :
  find_caller functions ta = Some tb ->
  find_caller functions tb = Some ta ->
  calculate_caller_height functions ta = 1.
Proof.
  intros Ha Hb. apply (@height_any_fuel functions ta 2).
  rewrite height_loop_step, Ha.
  change (in_set (get_function_name tb) []) with false. cbv iota.
  rewrite height_loop_step, Hb.
  assert (Hin : in_set (get_function_name ta) [get_function_name ta] = true)
    by (apply in_set_iff; left; reflexivity).
  rewrite Hin. reflexivity.
Qed.

Lemma two_cycle_height_witness :
  calculate_caller_height functions_pq text_p = 1.
Proof.
  apply (@two_cycle_height functions_pq text_p text_q); reflexivity.
Defined.

Lemma last_default_indep {A} : forall (p : list A) x d d',
  last (x :: p) d = last (x :: p) d'.
Proof.
  induction p as [|y p IH]; intros x d d'; [reflexivity|].
  change (last (x :: y :: p) d) with (last (y :: p) d).
  change (last (x :: y :: p) d') with (last (y :: p) d'). apply IH.
Qed.

Lemma last_cons_default {A} (c : A) p d : last (c :: p) d = last p c.
Proof.
  destruct p as [|x p]; [reflexivity|].
  change (last (c :: x :: p) d) with (last (x :: p) d).
  apply last_default_indep.
Qed.

(** Along a chain of callers with pairwise distinct names the loop takes one
    hop per link. *)
Lemma height_loop_along fs : forall path cur h visited fuel,
  caller_chain fs cur path ->
  NoDup (map get_function_name (cur :: path)) ->
  (forall c, In c path -> ~ In (get_function_name c) visited) ->
  height_loop fs (length path + fuel) h cur visited
  = height_loop fs fuel (h + length path) (last path cur)
      (rev (map get_function_name (removelast (cur :: path))) ++ visited).
Proof.
  induction path as [|c p IH]; intros cur h visited fuel Hc Hnd Hv.
  - simpl. rewrite Nat.add_0_r. reflexivity.
  - destruct Hc as [Hc Hp].
    change (length (c :: p) + fuel) with (S (length p + fuel)).
    rewrite height_loop_step, Hc.
    assert (Ev : in_set (get_function_name c) visited = false).
    { destruct (in_set _ visited) eqn:E; [|reflexivity].
      apply in_set_iff in E. exfalso. apply (Hv c); [left; reflexivity|].
      exact E. }
    rewrite Ev. cbn [map] in Hnd. apply NoDup_cons_iff in Hnd.
    destruct Hnd as [Hcur Hnd].
    rewrite IH; [|exact Hp|exact Hnd|].
    + rewrite (last_cons_default c p cur).
      change (removelast (cur :: c :: p)) with (cur :: removelast (c :: p)).
      cbn [map rev length]. rewrite <- app_assoc. simpl app.
      f_equal. lia.
    + intros c' Hc' [E|Hin].
      * apply Hcur. rewrite E. right. apply in_map. exact Hc'.
      * apply (Hv c'); [right; exact Hc' | exact Hin].
Qed.

(** X9: along a chain of callers with pairwise distinct names that ends in a
    function nobody calls, the caller height is the number of links. *)
Theorem chain_height (functions : list (text * text)) (function_text : text)
    (path : list text) :
  caller_chain functions function_text path ->
  NoDup (map get_function_name (function_text :: path)) ->
  find_caller functions (last path function_text) = None ->
  calculate_caller_height functions function_text = length path.
Proof.
  intros Hc Hnd Hend. apply (@height_any_fuel _ _ (length path + 1)).
  rewrite height_loop_along; [|exact Hc|exact Hnd|intros c _ []].
  rewrite height_loop_step, Hend. reflexivity.
Qed.

Lemma chain_height_witness :
  calculate_caller_height functions_chain text_c0 = 2.
Proof.
  apply (@chain_height functions_chain text_c0 [text_c1; text_c2]).
  - vm_compute. auto.
  - vm_compute. repeat constructor; simpl; intuition discriminate.
  - vm_compute. reflexivity.
Defined.

(** X10: on a ring of two or more functions with pairwise distinct names,
    each found as the caller of the one before, the walk stops when it
    comes back to the start: the caller height is the length of the ring
    minus one. *)
Theorem ring_height (functions : list (text * text)) (function_text : text)
    (path : list text) :
  caller_chain functions function_text path ->
  NoDup (map get_function_name (function_text :: path)) ->
  path <> [] ->
  find_caller functions (last path function_text) = Some function_text ->
  calculate_caller_height functions function_text = length path.
Proof.
  intros Hc Hnd Hne Hend. apply (@height_any_fuel _ _ (length path + 1)).
  rewrite height_loop_along; [|exact Hc|exact Hnd|intros c _ []].
  rewrite height_loop_step, Hend.
  assert (Hin : in_set (get_function_name function_text)
                  (rev (map get_function_name
                          (removelast (function_text :: path))) ++ [])
                = true).
  { apply in_set_iff. rewrite app_nil_r, <- in_rev.
    destruct path as [|c p]; [contradiction|].
    change (removelast (function_text :: c :: p))
      with (function_text :: removelast (c :: p)).
    left. reflexivity. }
  rewrite Hin. reflexivity.
Qed.

Lemma ring_height_witness :
  calculate_caller_height functions_ring text_r0 = 2.
Proof.
  apply (@ring_height functions_ring text_r0 [text_r1; text_r2]).
  - vm_compute. auto.
  - vm_compute. repeat constructor; simpl; intuition discriminate.
  - discriminate.
  - vm_compute. reflexivity.
Defined.

(** * Further properties of loops, blocks and instruction counts *)

Lemma finditer_nonempty r t a b c :
  t = a ++ b -> In c (run r (Cur (prev_after None a) b None)) ->
  finditer r t <> [].
Proof.
  intros E Hc Hn. apply (@search_finds r t a b c E Hc).
  unfold search. rewrite Hn. reflexivity.
Qed.

Lemma anchor_line_found t :
  loop_anchor_line t -> findall loop_header_pattern t <> [].
Proof.
  intros (a & u & b & E & Hu) Hn.
  apply (@finditer_nonempty loop_header_pattern t a
           (txt "loop:" ++ u ++ nl :: b)
           (Cur (Some nl) b None)); [exact E| |].
  - unfold loop_header_pattern. apply in_run_seq.
    exists (Cur (prev_after (prev_after None a) (txt "loop:"))
                (u ++ nl :: b) None). split.
    { apply in_run_str. simpl. auto. }
    apply in_run_seq.
    exists (Cur (prev_after (prev_after (prev_after None a) (txt "loop:")) u)
                (nl :: b) None). split.
    { apply in_run_star. exists u. simpl. auto. }
    apply in_run_lit. simpl. auto.
  - unfold findall in Hn. destruct (finditer loop_header_pattern t);
      [reflexivity | discriminate].
Qed.

Lemma header_depth_positive t header :
  In header (findall loop_header_pattern t) ->
  1 <= count_matches loop_pattern header.
Proof.
  intros H. apply loop_header_shape in H. destruct H as ((u & -> & _) & _).
  unfold count_matches, findall. rewrite length_map.
  assert (Hne : finditer loop_pattern (txt "loop:" ++ u ++ [nl]) <> []).
  { apply (@finditer_nonempty loop_pattern _ [] (txt "loop:" ++ u ++ [nl])
             (Cur (Some ":"%char) (u ++ [nl]) None)); [reflexivity|].
    unfold loop_pattern. apply in_run_str. simpl. auto. }
  destruct (finditer loop_pattern (txt "loop:" ++ u ++ [nl]));
    [contradiction | simpl; lia].
Qed.

Lemma sum_max_bounds (l : list nat) :
  (forall x, In x l -> 1 <= x) ->
  length l <= sum l /\ sum l <= length l * list_max l
  /\ (l <> [] -> 1 <= list_max l).
Proof.
  induction l as [|x l IH]; intros H.
  - simpl. split; [lia|]. split; [lia|]. intros Hne. contradiction.
  - assert (Hx : 1 <= x) by (apply H; left; reflexivity).
    destruct IH as (I1 & I2 & _); [intros y Hy; apply H; right; exact Hy|].
    simpl. split; [lia|]. split; [nia | intros _; lia].
Qed.

Lemma pos_of_nat_Z b : b <> 0 -> Z.pos (Pos.of_nat b) = Z.of_nat b.
Proof.
  intros H. rewrite <- Znat.positive_nat_Z, Nat2Pos.id by exact H.
  reflexivity.
Qed.

(** X11: as soon as a function text holds a loop anchor line, its
    [max_loop_depth] is at least 1 and its [avg_nested_loop_level] lies
    between 1 and [max_loop_depth]: every anchor line counts the [loop:]
    that opens it. *)
Theorem loop_depth_at_least_one (function_text : text) :
  loop_anchor_line function_text ->
  exists loop_features avg mx,
    get_loop_features function_text = Some loop_features
    /\ lookup "avg_nested_loop_level" loop_features = Some (VNum avg)
    /\ lookup "max_loop_depth" loop_features = Some (VNat mx)
    /\ 1 <= mx /\ (1 <= avg)%Q /\ (avg <= inject_Z (Z.of_nat mx))%Q.
Proof.
  intros H. apply anchor_line_found in H.
  assert (Hd := header_depth_positive function_text).
  unfold get_loop_features.
  destruct (findall loop_header_pattern function_text) as [|h l];
    [contradiction|].
  assert (Hall : forall x,
            In x (map (count_matches loop_pattern) (h :: l)) -> 1 <= x).
  { intros x Hx. apply in_map_iff in Hx. destruct Hx as (hd & <- & Hin).
    apply Hd. exact Hin. }
  cbn [is_empty map length truediv bind] in *.
  set (depths := count_matches loop_pattern h
                 :: map (count_matches loop_pattern) l) in *.
  destruct (sum_max_bounds depths Hall) as (B1 & B2 & B3).
  assert (Hne : depths <> []) by discriminate. specialize (B3 Hne).
  assert (Hlen : length depths <> 0) by (unfold depths; simpl; lia).
  change (S (length (map (count_matches loop_pattern) l)))
    with (length depths).
  eexists.
  exists (Qmake (Z.of_nat (sum depths)) (Pos.of_nat (length depths))),
         (list_max depths).
  split; [reflexivity|].
  split; [reflexivity|]. split; [reflexivity|]. split; [exact B3|].
  unfold Qle, inject_Z. cbn [Qnum Qden].
  rewrite (pos_of_nat_Z Hlen). split; nia.
Qed.

Lemma loop_depth_at_least_one_witness :
  exists loop_features avg mx,
    get_loop_features text_loop = Some loop_features
    /\ lookup "avg_nested_loop_level" loop_features = Some (VNum avg)
    /\ lookup "max_loop_depth" loop_features = Some (VNat mx)
    /\ 1 <= mx /\ (1 <= avg)%Q /\ (avg <= inject_Z (Z.of_nat mx))%Q.
Proof.
  apply loop_depth_at_least_one.
  exists (txt "define void @f() {
entry:
  br label %body
body: ; "), (txt " header"), (txt "  call void @g()
  br i1 %c, label %body, label %exit
}"). split; reflexivity.
Defined.

(** X12: a function text without any label line has no basic block at all,
    whatever instructions it holds, and so both per-block averages are 0;
    the unlabelled entry region alone never counts as a block. *)
Theorem no_label_no_blocks (function_text : text) :
  (forall sep, label_line sep -> ~ substring sep function_text) ->
  get_basic_blocks function_text = []
  /\ get_instruction_per_block function_text = Some 0%Q
  /\ get_successor_per_block function_text = Some 0%Q.
Proof.
  intros H.
  assert (E : finditer label_pattern function_text = []).
  { destruct (finditer label_pattern function_text) as [|m l] eqn:E;
      [reflexivity|]. exfalso.
    assert (Hm : In m (finditer label_pattern function_text))
      by (rewrite E; left; reflexivity).
    apply (H (m_text m)).
    - eapply label_match_is_label_line; eauto.
    - eapply finditer_substring; eauto. }
  assert (Eb : get_basic_blocks function_text = []).
  { unfold get_basic_blocks, re_split. rewrite E. reflexivity. }
  split; [exact Eb|].
  unfold get_instruction_per_block, get_successor_per_block. rewrite Eb.
  split; reflexivity.
Qed.

Lemma no_colon_no_label t :
  ~ In ":"%char t -> forall sep, label_line sep -> ~ substring sep t.
Proof.
  intros Hn sep (ws & name & -> & _) (a & b & ->). apply Hn.
  apply in_or_app. right. apply in_or_app. left. right.
  apply in_or_app. right. apply in_or_app. right. left. reflexivity.
Qed.

Lemma no_label_no_blocks_witness :
  get_basic_blocks text_f = []
  /\ get_instruction_per_block text_f = Some 0%Q
  /\ get_successor_per_block text_f = Some 0%Q.
Proof.
  apply no_label_no_blocks. apply no_colon_no_label.
  cbv. intuition discriminate.
Defined.

Lemma in_run_wordb c c' :
  In c' (run WordB c) <->
  c' = c /\ xorb (word_at (prev c)) (word_at (hd_error (rest c))) = true.
Proof.
  simpl. destruct (xorb _ _); split.
  - intros [<-|[]]. auto.
  - intros [-> _]. left. reflexivity.
  - intros [].
  - intros [_ H]. discriminate.
Qed.

Lemma prev_after_nonempty w : w <> [] ->
  forall pv pv', prev_after pv w = prev_after pv' w.
Proof.
  destruct w as [|x w]; [contradiction|]. intros _ pv pv'. reflexivity.
Qed.

(** X13: [count_specific_instructions] and [get_calls_no] count whole words
    only.  For an instruction without special character that begins and
    ends with a word character, the count is the number of matches of the
    literal word, and every match counted is the word itself, not preceded
    and not followed by a word character: [call] inside [recall] or
    [callee] is never counted. *)
Theorem counted_words_are_whole (instruction : string)
    (function_text : text) :
  existsb is_special (txt instruction) = false ->
  word_at (hd_error (txt instruction)) = true ->
  word_at (prev_after None (txt instruction)) = true ->
  exists r,
    instruction_pattern (txt instruction) = Some r
    /\ count_specific_instructions function_text instruction
       = Some (length (finditer r function_text))
    /\ (instruction = "call"%string ->
        get_calls_no function_text = length (finditer r function_text))
    /\ forall m, In m (finditer r function_text) ->
         exists a b,
           function_text = a ++ txt instruction ++ b
           /\ m_start m = length a /\ m_text m = txt instruction
           /\ word_at (prev_after None a) = false
           /\ word_at (hd_error b) = false.
Proof.
  intros Hplain Hfirst Hlast. set (w := txt instruction) in *.
  exists (word_pattern w).
  assert (Ep : instruction_pattern w = Some (word_pattern w)).
  { unfold instruction_pattern. rewrite Hplain. reflexivity. }
  split; [exact Ep|]. split; [|split].
  { unfold count_specific_instructions. fold w. rewrite Ep.
    unfold bind, count_matches, findall. rewrite length_map. reflexivity. }
  { intros ->. unfold get_calls_no, count_matches, findall.
    rewrite length_map. reflexivity. }
  intros m Hm.
  assert (Hne : w <> []) by (intros E; rewrite E in Hfirst; discriminate).
  apply finditer_in in Hm.
  destruct Hm as (a & u & b & c & Et & Es & Eu & _ & Er & Hm).
  apply match_at_in in Hm. unfold word_pattern in Hm.
  apply in_run_seq in Hm. destruct Hm as (c1 & H1 & Hm).
  apply in_run_seq in Hm. destruct Hm as (c2 & H2 & H3).
  apply in_run_wordb in H1. destruct H1 as [-> X1]. cbn [prev rest] in X1.
  apply in_run_str in H2. destruct H2 as (E2 & P2 & _). cbn [prev rest] in *.
  apply in_run_wordb in H3. destruct H3 as [-> X3].
  rewrite Er in E2. rewrite E2 in X1.
  apply app_inv_tail in E2.
  rewrite P2, Er in X3.
  rewrite (prev_after_nonempty Hne _ None), Hlast in X3.
  assert (Eh : hd_error (w ++ b) = hd_error w)
    by (destruct w; [contradiction | reflexivity]).
  rewrite Eh, Hfirst in X1.
  exists a, b. rewrite Eu, E2. split; [rewrite Et, E2; reflexivity|].
  split; [exact Es|]. split; [reflexivity|]. split.
  - destruct (word_at (prev_after None a)); [discriminate X1 | reflexivity].
  - destruct (word_at (hd_error b)); [discriminate X3 | reflexivity].
Qed.

Lemma counted_words_are_whole_witness :
  exists r,
    instruction_pattern (txt "call") = Some r
    /\ count_specific_instructions text_B "call"
       = Some (length (finditer r text_B))
    /\ ("call"%string = "call"%string ->
        get_calls_no text_B = length (finditer r text_B))
    /\ forall m, In m (finditer r text_B) ->
         exists a b,
           text_B = a ++ txt "call" ++ b
           /\ m_start m = length a /\ m_text m = txt "call"
           /\ word_at (prev_after None a) = false
           /\ word_at (hd_error b) = false.
Proof.
  apply (counted_words_are_whole "call" text_B); reflexivity.
Defined.

(** * [process_directory] *)

Lemma flat_map_nil_iff {A B} (f : A -> list B) l :
  flat_map f l = [] <-> forall x, In x l -> f x = [].
Proof.
  split.
  - intros H x Hx. eapply flat_map_nil_in; eauto.
  - induction l as [|y l IH]; intros H; [reflexivity|]. simpl.
    rewrite (H y) by (left; reflexivity). apply IH.
    intros x Hx. apply H. right. exact Hx.
Qed.

(** The frame a readable file contributes: without row it has the single
    column [source_file]; with a row it has the twenty feature keys and
    then [source_file]. *)
Lemma processed_frame name ir :
  exists df,
    process_file (name, Some ir) = [df]
    /\ ((extract_all_features ir = Some []
         /\ columns df = ["source_file"%string] /\ records df = [])
        \/ (exists r0 r,
              extract_all_features ir = Some [r0] /\ records df = [r]
              /\ columns df = feature_keys ++ ["source_file"%string]
              /\ map fst r = feature_keys ++ ["source_file"%string]
              /\ lookup "source_file" r = Some (VStr name)
              /\ forall k, In k feature_keys -> lookup k r = lookup k r0)).
Proof.
  destruct (extract_all_features_returns ir) as (features & E & F).
  assert (L : length features <= 1).
  { rewrite <- (Forall2_length F). apply split_at_most_one. }
  unfold process_file. cbn [snd fst]. rewrite E. eexists.
  split; [reflexivity|].
  destruct features as [|r0 [|r1 features]]; [| |simpl in L; lia].
  - left. split; [reflexivity|]. split; reflexivity.
  - right.
    assert (Hin : In r0 [r0]) by (left; reflexivity).
    apply (in_extract_all_features ir r0 E) in Hin.
    destruct Hin as (n & t & _ & Er).
    destruct (feature_row_shape (split_into_functions ir) n t)
      as (a1 & a2 & l1 & l2 & l3 & l4 & l5 & c1 & c2 & c3 & c4 & c5
          & _ & _ & _ & _ & Erow & _).
    rewrite Erow in Er. injection Er as <-.
    eexists. eexists. split; [reflexivity|]. split; [reflexivity|].
    split; [reflexivity|]. split; [reflexivity|]. split; [reflexivity|].
    intros k Hk. simpl in Hk.
    repeat (destruct Hk as [<-|Hk]; [reflexivity|]). destruct Hk.
Qed.

(** X14: [process_directory] raises its "no files" exception exactly when
    the listing holds no file named [*.ll] that could be read; one readable
    [.ll] file is enough for a result, even if it yields no row. *)
Theorem process_directory_fails_iff (listing : list (text * option text)) :
  process_directory listing = None <->
  forall name content,
    In (name, content) listing -> ends_with (txt ".ll") name = true ->
    content = None.
Proof.
  unfold process_directory.
  set (files := filter (fun f => ends_with (txt ".ll") (fst f)) listing).
  assert (Hnil : flat_map process_file files = [] <->
                 forall name content,
                   In (name, content) listing ->
                   ends_with (txt ".ll") name = true -> content = None).
  { rewrite flat_map_nil_iff. split.
    - intros H name content Hin He.
      assert (Hf : In (name, content) files)
        by (apply filter_In; split; [exact Hin | exact He]).
      specialize (H _ Hf). destruct content as [ir|]; [|reflexivity].
      destruct (processed_frame name ir) as (df & Edf & _).
      rewrite Edf in H. discriminate.
    - intros H [name content] Hf. apply filter_In in Hf.
      destruct Hf as [Hin He]. simpl in He.
      rewrite (H name content Hin He). reflexivity. }
  destruct (flat_map process_file files) as [|df l].
  - simpl. split; [intros _; apply Hnil; reflexivity | reflexivity].
  - simpl. split; [discriminate|]. intros H. apply Hnil in H. discriminate.
Qed.

Lemma process_directory_fails_iff_witness :
  process_directory [ (txt "notes.txt", Some (txt "define")); (txt "b.ll", None) ]
  = None.
Proof.
  apply process_directory_fails_iff. intros name content [H|[H|[]]] He.
  - injection H as <- <-. discriminate He.
  - injection H as <- <-. reflexivity.
Defined.

(** The frames of a directory: each has either the single column
    [source_file] and no record, or all the columns and one record. *)
Lemma frames_shape files df :
  In df (flat_map process_file files) ->
  (columns df = ["source_file"%string] /\ records df = [])
  \/ (columns df = feature_keys ++ ["source_file"%string]
      /\ exists r, records df = [r]).
Proof.
  intros H. apply in_flat_map in H. destruct H as ([name content] & _ & H).
  destruct content as [ir|]; [|destruct H].
  destruct (processed_frame name ir) as (df' & Edf & Hs).
  rewrite Edf in H. destruct H as [<-|[]].
  destruct Hs as [(_ & C & R)|(r0 & r & _ & R & C & _)].
  - left. auto.
  - right. split; [exact C|]. exists r. exact R.
Qed.

Lemma records_length_frames : forall files : list (text * option text),
  length (flat_map records (flat_map process_file files))
  <= length (filter (fun f => match snd f with Some _ => true | None => false end)
               files).
Proof.
  induction files as [|[name content] files IH]; [simpl; lia|].
  cbn [flat_map]. rewrite flat_map_app, length_app.
  cbn [snd filter]. destruct content as [ir|].
  - destruct (processed_frame name ir) as (df & Edf & Hs). rewrite Edf.
    cbn [flat_map length]. rewrite app_nil_r.
    destruct Hs as [(_ & _ & R)|(r0 & r & _ & R & _)]; rewrite R; simpl; lia.
  - cbn [process_file snd flat_map length]. lia.
Qed.

(** The columns [pd.concat] gives, from the columns gathered so far. *)
Lemma concat_columns_full frames :
  (forall df, In df frames ->
     columns df = ["source_file"%string]
     \/ columns df = feature_keys ++ ["source_file"%string]) ->
  fold_left (fun acc df => add_columns acc (columns df)) frames
    (feature_keys ++ ["source_file"%string])
  = feature_keys ++ ["source_file"%string].
Proof.
  induction frames as [|df frames IH]; intros H; [reflexivity|].
  cbn [fold_left].
  destruct (H df (or_introl eq_refl)) as [E|E]; rewrite E;
    (etransitivity; [|apply IH; intros d Hd; apply H; right; exact Hd]);
    reflexivity.
Qed.

Lemma concat_columns_file_first frames :
  (forall df, In df frames ->
     columns df = ["source_file"%string]
     \/ columns df = feature_keys ++ ["source_file"%string]) ->
  fold_left (fun acc df => add_columns acc (columns df)) frames
    ("source_file"%string :: feature_keys)
  = "source_file"%string :: feature_keys.
Proof.
  induction frames as [|df frames IH]; intros H; [reflexivity|].
  cbn [fold_left].
  destruct (H df (or_introl eq_refl)) as [E|E]; rewrite E;
    (etransitivity; [|apply IH; intros d Hd; apply H; right; exact Hd]);
    reflexivity.
Qed.

Lemma concat_columns_file_only frames :
  (forall df, In df frames ->
     (columns df = ["source_file"%string] /\ records df = [])
     \/ (columns df = feature_keys ++ ["source_file"%string]
         /\ exists r, records df = [r])) ->
  fold_left (fun acc df => add_columns acc (columns df)) frames
    ["source_file"%string]
  = if is_empty (flat_map records frames) then ["source_file"%string]
    else "source_file"%string :: feature_keys.
Proof.
  induction frames as [|df frames IH]; intros H; [reflexivity|].
  cbn [fold_left flat_map].
  destruct (H df (or_introl eq_refl)) as [(E & R)|(E & r & R)];
    rewrite E, R.
  - cbn [app]. etransitivity; [|apply IH; intros d Hd; apply H; right; exact Hd].
    reflexivity.
  - cbn [app is_empty].
    etransitivity; [|apply concat_columns_file_first with (frames := frames)].
    + reflexivity.
    + intros d Hd. destruct (H d (or_intror Hd)) as [(C & _)|(C & _)]; auto.
Qed.

Lemma skipped_files_no_frame l1 :
  Forall skipped l1 ->
  flat_map process_file
    (filter (fun f => ends_with (txt ".ll") (fst f)) l1) = [].
Proof.
  induction 1 as [|[name content] l1 Hs _ IH]; [reflexivity|].
  cbn [filter fst]. destruct (ends_with (txt ".ll") name) eqn:E; [|exact IH].
  cbn [flat_map]. rewrite IH.
  destruct Hs as [Hs|Hs]; cbn [fst snd] in Hs; [congruence|].
  subst content. reflexivity.
Qed.

(** X15: when [process_directory] returns a frame, every record comes from
    a readable file of the listing named [*.ll], carries that name under
    [source_file] beside the twenty feature values of the file's row, and
    has a value under every column; there are no more records than such
    files.  The order of the columns depends on the first file processed:
    when it has a row, the feature keys come first and [source_file] last;
    when it has none, [source_file] is the first column. *)
Theorem process_directory_rows (listing : list (text * option text))
    (df : frame) :
  process_directory listing = Some df ->
  length (records df)
  <= length (filter (fun f => match snd f with Some _ => true | None => false end)
               (filter (fun f => ends_with (txt ".ll") (fst f)) listing))
  /\ (forall r, In r (records df) ->
        (exists name ir features r0,
           In (name, Some ir) listing
           /\ ends_with (txt ".ll") name = true
           /\ extract_all_features ir = Some features /\ In r0 features
           /\ lookup "source_file" r = Some (VStr name)
           /\ forall k, In k feature_keys -> lookup k r = lookup k r0)
        /\ forall c, In c (columns df) -> lookup c r <> None)
  /\ (forall name ir,
        first_processed listing name ir ->
        (extract_all_features ir = Some [] ->
         columns df = if is_empty (records df)
                      then ["source_file"%string]
                      else "source_file"%string :: feature_keys)
        /\ (extract_all_features ir <> Some [] ->
            columns df = feature_keys ++ ["source_file"%string])).
Proof.
  unfold process_directory.
  set (files := filter (fun f => ends_with (txt ".ll") (fst f)) listing).
  destruct (flat_map process_file files) as [|d0 l] eqn:E; [discriminate|].
  cbn [is_empty]. intros H. injection H as <-. rewrite <- E.
  unfold pd_concat. cbn [records columns].
  assert (Hshape := frames_shape files).
  split; [apply records_length_frames|]. split.
  - intros r Hr.
    apply in_flat_map in Hr. destruct Hr as (d & Hd & Hr).
    apply in_flat_map in Hd. destruct Hd as ([name content] & Hf & Hd).
    apply filter_In in Hf. destruct Hf as [Hin He]. cbn [fst] in He.
    destruct content as [ir|]; [|destruct Hd].
    destruct (processed_frame name ir) as (d' & Ed & Hs).
    rewrite Ed in Hd. destruct Hd as [<-|[]].
    destruct Hs as [(_ & _ & R)|(r0 & r' & E0 & R & _ & K & S & V)];
      rewrite R in Hr; [destruct Hr|].
    destruct Hr as [<-|[]]. split.
    + exists name, ir, [r0], r0. split; [exact Hin|]. split; [exact He|].
      split; [exact E0|]. split; [left; reflexivity|]. split; assumption.
    + intros c Hc.
      assert (Hc' : In c (feature_keys ++ ["source_file"%string])).
      { assert (Hcols :
          fold_left (fun acc df => add_columns acc (columns df))
            (flat_map process_file files) []
          = ["source_file"%string]
          \/ fold_left (fun acc df => add_columns acc (columns df))
               (flat_map process_file files) []
             = feature_keys ++ ["source_file"%string]
          \/ fold_left (fun acc df => add_columns acc (columns df))
               (flat_map process_file files) []
             = "source_file"%string :: feature_keys).
        { rewrite E. cbn [fold_left].
          assert (Hl : forall d, In d l ->
                    (columns d = ["source_file"%string] /\ records d = [])
                    \/ (columns d = feature_keys ++ ["source_file"%string]
                        /\ exists r, records d = [r])).
          { intros d Hd. apply Hshape. rewrite E. right. exact Hd. }
          destruct (Hshape d0) as [(C & _)|(C & _)];
            [rewrite E; left; reflexivity | |]; rewrite C.
          - change (add_columns [] ["source_file"%string])
              with ["source_file"%string].
            rewrite (concat_columns_file_only l Hl).
            destruct (is_empty _); auto.
          - change (add_columns [] (feature_keys ++ ["source_file"%string]))
              with (feature_keys ++ ["source_file"%string]).
            right. left. apply concat_columns_full.
            intros d Hd. destruct (Hl d Hd) as [(X & _)|(X & _)]; auto. }
        destruct Hcols as [Hc1|[Hc1|Hc1]]; rewrite Hc1 in Hc.
        - apply in_or_app. right. exact Hc.
        - exact Hc.
        - destruct Hc as [<-|Hc]; apply in_or_app;
            [right; left; reflexivity | left; exact Hc]. }
      rewrite <- K in Hc'. apply in_map_iff in Hc'.
      destruct Hc' as ([c' v] & <- & Hcv). cbn [fst].
      clear - Hcv. unfold lookup.
      induction r' as [|[k' v'] r' IH]; [destruct Hcv|].
      cbn [dict_get]. destruct (String.eqb k' c') eqn:Ek; [discriminate|].
      destruct Hcv as [Hcv|Hcv]; [|exact (IH Hcv)].
      injection Hcv as -> ->. rewrite String.eqb_refl in Ek. discriminate.
  - intros name ir (l1 & l2 & El & Hsk & He).
    assert (Ef : flat_map process_file files
                 = process_file (name, Some ir)
                   ++ flat_map process_file
                        (filter (fun f => ends_with (txt ".ll") (fst f)) l2)).
    { unfold files. rewrite El, filter_app, flat_map_app.
      rewrite (skipped_files_no_frame Hsk). cbn [app filter fst].
      rewrite He. reflexivity. }
    destruct (processed_frame name ir) as (d & Ed & Hs).
    rewrite Ed in Ef. cbn [app] in Ef.
    assert (Hl : forall d', In d' (flat_map process_file
                    (filter (fun f => ends_with (txt ".ll") (fst f)) l2)) ->
                  (columns d' = ["source_file"%string] /\ records d' = [])
                  \/ (columns d' = feature_keys ++ ["source_file"%string]
                      /\ exists r, records d' = [r])).
    { intros d' Hd'. apply Hshape. rewrite Ef. right. exact Hd'. }
    rewrite Ef. cbn [fold_left flat_map].
    destruct Hs as [(E0 & C & R)|(r0 & r & E0 & R & C & _)]; rewrite C, R.
    + split; [intros _|intros Hn; contradiction].
      change (add_columns [] ["source_file"%string])
        with ["source_file"%string].
      cbn [app]. apply concat_columns_file_only. exact Hl.
    + split; [intros E1; congruence|intros _].
      change (add_columns [] (feature_keys ++ ["source_file"%string]))
        with (feature_keys ++ ["source_file"%string]).
      apply concat_columns_full.
      intros d' Hd'. destruct (Hl d' Hd') as [(X & _)|(X & _)]; auto.
Qed.

Lemma process_directory_rows_witness :
  exists df df',
    process_directory listing_empty_first = Some df
    /\ columns df = "source_file"%string :: feature_keys
    /\ process_directory listing_example = Some df'
    /\ columns df' = feature_keys ++ ["source_file"%string]
    /\ length (records df) <= 2
    /\ (forall r, In r (records df) ->
          (exists name ir features r0,
             In (name, Some ir) listing_empty_first
             /\ ends_with (txt ".ll") name = true
             /\ extract_all_features ir = Some features /\ In r0 features
             /\ lookup "source_file" r = Some (VStr name)
             /\ forall k, In k feature_keys -> lookup k r = lookup k r0)
          /\ forall c, In c (columns df) -> lookup c r <> None)
    /\ (forall name ir,
          first_processed listing_empty_first name ir ->
          (extract_all_features ir = Some [] ->
           columns df = if is_empty (records df)
                        then ["source_file"%string]
                        else "source_file"%string :: feature_keys)
          /\ (extract_all_features ir <> Some [] ->
              columns df = feature_keys ++ ["source_file"%string])).
Proof.
  destruct (process_directory listing_empty_first) as [df|] eqn:E;
    [|vm_compute in E; discriminate].
  destruct (process_directory listing_example) as [df'|] eqn:E';
    [|vm_compute in E'; discriminate].
  exists df, df'. split; [reflexivity|]. split; [|split; [reflexivity|split]].
  - vm_compute in E. injection E as <-. reflexivity.
  - vm_compute in E'. injection E' as <-. reflexivity.
  - exact (process_directory_rows listing_empty_first E).
Defined.

(** * [get_available_passes] *)

Lemma substring_cons x s t : substring s t -> substring s (x :: t).
Proof. intros (a & b & ->). exists (x :: a), b. reflexivity. Qed.

Lemma substring_in (x : ascii) s t : substring s t -> In x s -> In x t.
Proof.
  intros (a & b & ->) H. apply in_or_app. right. apply in_or_app. left.
  exact H.
Qed.

(** The lines [split('\n')] returns: the first is a prefix of the text, none
    holds a newline, each occurs in the text. *)
Lemma split_lines_spec : forall t,
  exists l ls,
    split_lines t = l :: ls
    /\ (exists b, t = l ++ b)
    /\ forall line, In line (l :: ls) -> ~ In nl line /\ substring line t.
Proof.
  induction t as [|c t (l & ls & E & (b & Eb) & H)].
  - exists [], []. split; [reflexivity|]. split; [exists []; reflexivity|].
    intros line [<-|[]]. split; [intros [] | apply substring_refl].
  - cbn [split_lines]. destruct (Ascii.eqb c nl) eqn:Ec.
    + exists [], (split_lines t). split; [reflexivity|].
      split; [exists (c :: t); reflexivity|].
      intros line [<-|Hin].
      * split; [intros [] | exists [], (c :: t); reflexivity].
      * rewrite E in Hin. destruct (H line Hin) as [H1 H2].
        split; [exact H1 | apply substring_cons; exact H2].
    + rewrite E. exists (c :: l), ls. split; [reflexivity|].
      split; [exists b; simpl; rewrite <- Eb; reflexivity|].
      intros line [<-|Hin].
      * split.
        -- intros [Hc|Hl].
           ++ subst c. unfold nl in Ec. rewrite Ascii.eqb_refl in Ec.
              discriminate.
           ++ apply (H l); [left; reflexivity | exact Hl].
        -- exists [], b. simpl. rewrite <- Eb. reflexivity.
      * destruct (H line (or_intror Hin)) as [H1 H2].
        split; [exact H1 | apply substring_cons; exact H2].
Qed.

Lemma strip_ends t :
  (forall x, hd_error (strip t) = Some x -> is_space x = false)
  /\ (forall x, hd_error (rev (strip t)) = Some x -> is_space x = false).
Proof.
  unfold strip, rstrip. split.
  - intros x Hx.
    destruct (lstrip_suffix (rev (lstrip t))) as (b & Eb).
    assert (E : lstrip t = rev (lstrip (rev (lstrip t))) ++ rev b).
    { rewrite <- rev_app_distr, <- Eb, rev_involutive. reflexivity. }
    destruct (rev (lstrip (rev (lstrip t)))) as [|y s]; [discriminate|].
    simpl in Hx. injection Hx as ->. simpl in E.
    apply (lstrip_head _ E).
  - intros x Hx. rewrite rev_involutive in Hx.
    destruct (lstrip (rev (lstrip t))) as [|y s] eqn:E; [discriminate|].
    simpl in Hx. injection Hx as ->. apply (lstrip_head _ E).
Qed.

(** X16: every pass name [get_available_passes] returns is a line of the
    output that does not start with a space, stripped: it is not empty, has
    no whitespace at either end, holds no newline and occurs in the output.
    Lines that start with a space are never returned. *)
Theorem passes_are_stripped_lines (stdout pass : text) :
  In pass (get_available_passes (Some stdout)) ->
  (exists line,
     In line (split_lines stdout) /\ pass = strip line
     /\ starts_with [" "%char] line = false)
  /\ pass <> [] /\ ~ In nl pass /\ substring pass stdout
  /\ (forall x, hd_error pass = Some x -> is_space x = false)
  /\ (forall x, hd_error (rev pass) = Some x -> is_space x = false).
Proof.
  unfold get_available_passes, parse_passes. intros H.
  apply in_map_iff in H. destruct H as (line & <- & H).
  apply filter_In in H. destruct H as [Hin Hf].
  apply andb_true_iff in Hf. destruct Hf as [Hne Hsp].
  apply negb_true_iff in Hne, Hsp.
  destruct (split_lines_spec stdout) as (l & ls & E & _ & Hl).
  rewrite E in Hin. destruct (Hl line Hin) as [Hnl Hsub].
  split; [exists line; rewrite E; auto|].
  split; [intros Hs; rewrite Hs in Hne; discriminate|].
  split; [intros Hp; apply Hnl;
          apply (@substring_in nl _ _ (strip_substring line) Hp)|].
  split; [apply (substring_trans (strip_substring line) Hsub)|].
  apply strip_ends.
Qed.

Lemma passes_are_stripped_lines_witness :
  (exists line,
     In line (split_lines passes_output) /\ txt "adce" = strip line
     /\ starts_with [" "%char] line = false)
  /\ txt "adce" <> [] /\ ~ In nl (txt "adce")
  /\ substring (txt "adce") passes_output
  /\ (forall x, hd_error (txt "adce") = Some x -> is_space x = false)
  /\ (forall x, hd_error (rev (txt "adce")) = Some x -> is_space x = false).
Proof.
  apply passes_are_stripped_lines. vm_compute. right. right. left.
  reflexivity.
Defined.

(** * The callee recorded for a call line *)

Lemma hd_flat_map {A B} (f : A -> list B) : forall l c,
  hd_error (flat_map f l) = Some c ->
  exists x, In x l /\ hd_error (f x) = Some c.
Proof.
  induction l as [|y l IH]; intros c H; [discriminate|].
  simpl in H. destruct (f y) as [|b bs] eqn:E.
  - simpl in H. destruct (IH c H) as (x & Hx & Hc). exists x.
    split; [right; exact Hx | exact Hc].
  - simpl in H. injection H as ->. exists y.
    split; [left; reflexivity | rewrite E; reflexivity].
Qed.

(** Greedy repetition of a class followed by [r]: the match reported is one
    of [r] at the farthest point the class can reach where [r] matches. *)
Lemma greedy_class_head p r : forall t pv g c,
  hd_error (flat_map (run r) (star_run p pv t g)) = Some c ->
  exists x y,
    t = x ++ y /\ forallb p x = true
    /\ hd_error (run r (Cur (prev_after pv x) y g)) = Some c
    /\ forall x' y', t = x' ++ y' -> forallb p x' = true ->
         length y' < length y ->
         run r (Cur (prev_after pv x') y' g) = [].
Proof.
  induction t as [|z t IH]; intros pv g c H.
  - simpl in H. rewrite app_nil_r in H. exists [], [].
    split; [reflexivity|]. split; [reflexivity|].
    split; [exact H|].
    intros x' y' _ _ Hlt. simpl in Hlt. lia.
  - cbn [star_run] in H. destruct (p z) eqn:Pz.
    + rewrite flat_map_app in H.
      destruct (flat_map (run r) (star_run p (Some z) t g)) as [|c0 l] eqn:E.
      * simpl in H. rewrite app_nil_r in H. exists [], (z :: t).
        split; [reflexivity|]. split; [reflexivity|].
        split; [exact H|].
        intros x' y' Et Hp Hlt. destruct x' as [|z' x'].
        -- simpl in Et. subst y'. lia.
        -- simpl in Et. injection Et as <- Et. simpl in Hp.
           apply andb_true_iff in Hp. destruct Hp as [_ Hp].
           apply (flat_map_nil_in _ _ _ E). apply in_star_run.
           exists x'. cbn [rest prev grp]. auto.
      * simpl in H. injection H as ->.
        destruct (IH (Some z) g c) as (x & y & Et & Hx & Hin & Hmin).
        { rewrite E. reflexivity. }
        exists (z :: x), y. split; [simpl; rewrite Et; reflexivity|].
        split; [simpl; rewrite Pz, Hx; reflexivity|].
        split; [exact Hin|]. intros x' y' Et' Hp Hlt.
        destruct x' as [|z' x'].
        -- simpl in Et'. subst y'. rewrite Et in Hlt. simpl in Hlt.
           rewrite length_app in Hlt. lia.
        -- simpl in Et'. injection Et' as <- Et'. simpl in Hp.
           apply andb_true_iff in Hp. destruct Hp as [_ Hp].
           apply Hmin; assumption.
    + simpl in H. rewrite app_nil_r in H. exists [], (z :: t).
      split; [reflexivity|]. split; [reflexivity|].
      split; [exact H|].
      intros x' y' Et Hp Hlt. destruct x' as [|z' x'].
      * simpl in Et. subst y'. lia.
      * simpl in Et. injection Et as <- _. simpl in Hp. rewrite Pz in Hp.
        discriminate.
Qed.

Lemma first_line_not_nl : forall t, forallb not_nl (first_line t) = true.
Proof.
  induction t as [|c t IH]; [reflexivity|]. simpl.
  destruct (Ascii.eqb c nl) eqn:E; [reflexivity|]. simpl.
  unfold not_nl at 1. rewrite E. exact IH.
Qed.

Lemma name_char_not_nl x : is_name_char x = true -> not_nl x = true.
Proof.
  unfold not_nl. destruct (Ascii.eqb x nl) eqn:E; [|reflexivity].
  apply ascii_eqb_true in E. subst x. discriminate.
Qed.

Lemma forallb_name_not_nl u :
  forallb is_name_char u = true -> forallb not_nl u = true.
Proof.
  induction u as [|x u IH]; simpl; [reflexivity|]. intros H.
  apply andb_true_iff in H. destruct H as [Hx Hu].
  rewrite (name_char_not_nl _ Hx). simpl. auto.
Qed.

(** The tail [@([\w.]+)] matches wherever an [@] and a name character
    stand. *)
Lemma at_name_matches pv x q g :
  is_name_char x = true ->
  run (Seq (Lit "@") (Grp (Plus is_name_char)))
      (Cur pv ("@"%char :: x :: q) g) <> [].
Proof.
  intros Hx. cbn [run rest grp prev Plus flat_map app].
  rewrite Ascii.eqb_refl. cbn [flat_map run rest grp prev app map].
  rewrite Hx. cbn [flat_map run rest grp prev app map].
  destruct (star_run is_name_char (Some x) q g) as [|c l] eqn:E.
  - exfalso. destruct q; simpl in E; [discriminate|].
    destruct (is_name_char a); [|discriminate].
    destruct (star_run is_name_char (Some a) q g); discriminate.
  - simpl. discriminate.
Qed.

Lemma run_seq_eq r1 r2 c : run (Seq r1 r2) c = flat_map (run r2) (run r1 c).
Proof. reflexivity. Qed.

(** X17: the callee [get_call_graph_features] records for a call line is
    the last symbol token of that line, not the first after [call]: between
    the recorded name and the end of the line no further [@] token stands.
    A call that passes a global, [call void @f(ptr @g)], is recorded as a
    call to [g]. *)
Theorem callee_is_last_token (function_text : text) (m : mobj) :
  In m (finditer calls_pattern function_text) ->
  exists a ws mid name after,
    function_text
    = a ++ txt "call" ++ ws ++ mid ++ "@"%char :: name ++ after
    /\ m_start m = length a /\ group1 m = name
    /\ name <> [] /\ forallb is_name_char name = true
    /\ ws <> [] /\ forallb is_space ws = true
    /\ forallb not_nl mid = true
    /\ ~ token_start (first_line after).
Proof.
  intros Hm. apply finditer_in in Hm.
  destruct Hm as (a & u & b & c & Et & Es & _ & Eg & Er & Hm).
  unfold match_at in Hm.
  change calls_pattern
    with (Seq (Str (txt "call"))
            (Seq (Plus is_space) (Seq (Star not_nl) name_pattern))) in Hm.
  rewrite run_seq_eq in Hm.
  apply hd_flat_map in Hm. destruct Hm as (c1 & H1 & Hm).
  apply in_run_str in H1. destruct H1 as (E1 & _ & G1). cbn [rest grp] in *.
  rewrite run_seq_eq in Hm.
  apply hd_flat_map in Hm. destruct Hm as (c2 & H2 & Hm).
  apply in_run_plus in H2. destruct H2 as (x0 & ws & E2 & P2 & _ & G2).
  rewrite G1 in G2. rewrite run_seq_eq in Hm.
  change (run (Star not_nl) c2)
    with (star_run not_nl (prev c2) (rest c2) (grp c2)) in Hm.
  apply greedy_class_head in Hm.
  destruct Hm as (mid & y & E3 & P3 & Hhd & Hmin). rewrite G2 in Hhd, Hmin.
  assert (Hy := hd_error_in _ Hhd). apply name_pattern_start in Hy.
  destruct Hy as (x & q & Ey & Px).
  destruct (span_split is_name_char q) as (nm & post & Eq & Pnm & Ppost).
  assert (Hname : forallb is_name_char (x :: nm) = true)
    by (simpl; rewrite Px, Pnm; reflexivity).
  destruct (@name_pattern_here (prev_after (prev c2) mid) (x :: nm) post)
    as (c' & Ec' & Er' & Eg'); [discriminate | exact Hname | exact Ppost|].
  unfold match_at in Ec'. rewrite Ey, Eq in Hhd.
  change ("@"%char :: (x :: nm) ++ post) with ("@"%char :: x :: nm ++ post)
    in Ec'.
  rewrite Hhd in Ec'. injection Ec' as <-.
  rewrite Er in Er'. subst post.
  exists a, (x0 :: ws), mid, (x :: nm), b.
  split; [|split; [exact Es|split; [|split; [discriminate|split;
           [exact Hname|split; [discriminate|split; [exact P2|split;
           [exact P3|]]]]]]]].
  - rewrite Et, E1, E2, E3, Ey, Eq. list_norm. reflexivity.
  - unfold group1. rewrite Eg, Eg'. reflexivity.
  - intros (p & x' & q' & Ef & Px').
    destruct (first_line_split b) as (r & Eb & _).
    assert (Hp : forallb not_nl p = true).
    { assert (Hl := first_line_not_nl b). rewrite Ef, forallb_app in Hl.
      apply andb_true_iff in Hl. tauto. }
    assert (Hn := @at_name_matches
                    (prev_after (prev c2)
                       (mid ++ "@"%char :: (x :: nm) ++ p))
                    x' (q' ++ r) None Px').
    apply Hn.
    apply (Hmin (mid ++ "@"%char :: (x :: nm) ++ p)
                ("@"%char :: x' :: q' ++ r)).
    + rewrite E3, Ey, Eq, Eb, Ef. list_norm. reflexivity.
    + rewrite forallb_app. rewrite P3. cbn [andb forallb].
      change (not_nl "@") with true. cbn [andb]. rewrite forallb_app.
      change (not_nl x && forallb not_nl nm)
        with (forallb not_nl (x :: nm)).
      rewrite <- forallb_app. rewrite forallb_app.
      rewrite (forallb_name_not_nl _ Hname), Hp. reflexivity.
    + rewrite Ey, Eq, Eb, Ef.
      repeat (rewrite length_app || cbn [length]). lia.
Qed.

Lemma callee_is_last_token_witness :
  exists a ws mid name after,
    text_call_global
    = a ++ txt "call" ++ ws ++ mid ++ "@"%char :: name ++ after
    /\ m_start (nth 0 (finditer calls_pattern text_call_global)
                  (MObj 0 [] None)) = length a
    /\ group1 (nth 0 (finditer calls_pattern text_call_global)
                 (MObj 0 [] None)) = name
    /\ name <> [] /\ forallb is_name_char name = true
    /\ ws <> [] /\ forallb is_space ws = true
    /\ forallb not_nl mid = true
    /\ ~ token_start (first_line after).
Proof.
  apply callee_is_last_token. vm_compute. left. reflexivity.
Defined.

(** On [text_call_global] the callee recorded is [g]: the self-call goes
    unnoticed. *)
Lemma self_call_with_global_not_recursive :
  findall1 calls_pattern text_call_global = [txt "g"]
  /\ lookup "is_recursive"
       (get_call_graph_features [(txt "f", text_call_global)]
          text_call_global)
     = Some (VNat 0).
Proof. vm_compute. split; reflexivity. Qed.

(** X18: the rows follow the function mapping: one row per entry, in the
    mapping's order, each carrying the entry's key under [function_name];
    the two [update] calls add their keys without overwriting it. *)
Theorem rows_follow_mapping (functions : list (text * text)) :
  exists rows,
    extract_rows functions = Some rows
    /\ length rows = length functions
    /\ map (lookup "function_name") rows
       = map (fun kv => Some (VStr (fst kv))) functions.
Proof.
  destruct (extract_rows_returns functions) as (rows & E & F).
  exists rows. split; [exact E|].
  split; [symmetry; apply (Forall2_length F)|].
  clear E. induction F as [|[n t] r l rows Hr F IH]; [reflexivity|].
  cbn [map fst snd] in *. rewrite IH. f_equal.
  destruct (feature_row_shape functions n t)
    as (a1 & a2 & l1 & l2 & l3 & l4 & l5 & c1 & c2 & c3 & c4 & c5
        & _ & _ & _ & _ & E & _).
  rewrite E in Hr. injection Hr as <-. reflexivity.
Qed.
